(** * mp::basic_inplace_string: a shallow embedding and its verification

    The development follows [include/mp/inplace_string.h].  A
    [basic_inplace_string<CharT, MaxSize, Traits>] owns one
    [std::array<CharT, MaxSize + 1>] named [chars_]; the current size is
    not a field of its own, it is kept as [max_size() - size()] in the
    last cell of the array.

    Modelling choices:
    - a character is the integer value it holds ([Z]); conversions to and
      from [impl_size_type] are written out with their wrap-around;
    - [std::size_t] is the 64-bit unsigned type of the LP64/LLP64 targets,
      every arithmetic operation on it is wrapped by [wrap_size_t];
    - a member function is a state transformer on the object with an
      explicit outcome: normal return, exception, failed [assert],
      [std::terminate] (an exception leaving a [noexcept] function), or
      undefined behaviour (an access outside an array);
    - a [const_pointer] argument of the constructors and of [append] is
      the array of characters that can be read through it; [assign]
      stores the terminator and the size before it reads its source, so
      its source is a [const_pointer] proper, which points either at an
      array outside the object or into [chars_] itself;
    - a [std::basic_string_view] is the sequence of characters it views
      and, for [assign], a pointer with a size;
    - [begin()] is [data()], or, in a build with [_MSC_VER] and
      [_ITERATOR_DEBUG_LEVEL != 0], a checked iterator over
      [size()] cells. *)

From Stdlib Require Import ZArith Lia String Ascii.
From stdpp Require Import base numbers option list.

Local Open Scope Z_scope.

(** ** Outcomes of a member function *)

Inductive exception : Type :=
| length_error   (* std::length_error *)
| out_of_range.  (* std::out_of_range *)

Inductive outcome (S A : Type) : Type :=
| Returns (a : A) (this : S)          (* normal return, object state [this] *)
| Throws (e : exception) (this : S)   (* exception reaches the caller *)
| AssertionFailed                     (* a failed run-time check aborted the
                                         program: assert(...), or the range
                                         check of a checked iterator *)
| Terminated                          (* std::terminate *)
| Undefined.                          (* undefined behaviour *)

Arguments Returns {S A} a this.
Arguments Throws {S A} e this.
Arguments AssertionFailed {S A}.
Arguments Terminated {S A}.
Arguments Undefined {S A}.

Definition method (S A : Type) : Type := S -> outcome S A.

Global Instance method_ret {S} : MRet (method S) :=
  fun A (a : A) this => Returns a this.

Global Instance method_bind {S} : MBind (method S) :=
  fun A B (k : A -> method S B) (m : method S A) this =>
    match m this with
    | Returns a this' => k a this'
    | Throws e this' => Throws e this'
    | AssertionFailed => AssertionFailed
    | Terminated => Terminated
    | Undefined => Undefined
    end.

(** [throw e]: the exception leaves the function, the object is as it was
    at the throw. *)
Definition throw {S A} (e : exception) : method S A := fun this => Throws e this.

Definition undefined {S A} : method S A := fun _ => Undefined.

(** Reading the object ([const] member functions). *)
Definition gets {S A} (f : S -> A) : method S A := fun this => Returns (f this) this.

(** A function declared [noexcept]: an exception that would leave it calls
    [std::terminate]. *)
Definition noexcept {S A} (m : method S A) : method S A :=
  fun this =>
    match m this with
    | Throws _ _ => Terminated
    | o => o
    end.

(** ** std::size_t *)

Definition size_t_bits : Z := 64.
Definition SIZE_MAX : Z := 2 ^ size_t_bits - 1.
Definition wrap_size_t (x : Z) : Z := x mod 2 ^ size_t_bits.
Definition is_size_t (x : Z) : Prop := 0 <= x <= SIZE_MAX.

(** [static constexpr size_type npos = static_cast<size_type>(-1)] *)
Definition npos : Z := wrap_size_t (-1).

(** ** The object *)

Record basic_inplace_string (MaxSize : Z) : Type :=
  Build_basic_inplace_string { chars_ : list Z }.

Arguments Build_basic_inplace_string {MaxSize} chars_.
Arguments chars_ {MaxSize} _.

(** [std::array] element access, for an index inside the array. *)
Definition array_get (a : list Z) (i : Z) : Z := a !!! Z.to_nat i.
Definition array_set (a : list Z) (i : Z) (c : Z) : list Z := <[Z.to_nat i := c]> a.

(** The array type fixes the number of cells. *)
Definition array_ok {MaxSize} (s : basic_inplace_string MaxSize) : Prop :=
  length (chars_ s) = Z.to_nat (MaxSize + 1).

(** ** Pointers to characters

    A [const CharT*] handed to [assign] points at the first cell of an
    array that is not the object's, or at the cell [off] of the object's
    own [chars_]. *)
Inductive const_pointer : Type :=
| external (a : list Z)
| internal (off : nat).

(** The cells that can be read from the pointer on, in the current state
    of the object. *)
Definition cells_at {MaxSize} (s : const_pointer) (this : basic_inplace_string MaxSize)
  : list Z :=
  match s with
  | external a => a
  | internal off => drop off (chars_ this)
  end.

(** [s + k] *)
Definition pointer_add (s : const_pointer) (k : Z) : const_pointer :=
  match s with
  | external a => external (drop (Z.to_nat k) a)
  | internal off => internal (off + Z.to_nat k)
  end.

(** The requirement of [Traits::copy] on a source of [count] characters
    copied to [data()]: the pointer is not in
    [[data(), data() + count)]. *)
Definition not_in_destination (p : const_pointer) (count : Z) : Prop :=
  match p with
  | external _ => True
  | internal off => count <= Z.of_nat off
  end.

(** A [std::basic_string_view] as [data()] and [size()]. *)
Record string_view : Type := { sv_data : const_pointer; sv_size : Z }.

(** ** The pieces of the standard library the class is built on *)

(** [Traits::length(s)]: the number of characters before the first zero
    character of the array at [s]; there is none to return when the array
    holds no zero (the scan would leave the array). *)
Fixpoint traits_length (s : list Z) : option Z :=
  match s with
  | [] => None
  | c :: s' => if c =? 0 then Some 0 else Z.succ <$> traits_length s'
  end.

Definition c_string_length {S} (s : list Z) : method S Z :=
  match traits_length s with
  | Some n => mret n
  | None => undefined
  end.

(** [std::basic_string_view::substr(pos, n)]: throws [std::out_of_range]
    if [pos > size()], otherwise views [rlen = min(n, size() - pos)]
    characters from [pos]. *)
Definition substr (sv : list Z) (pos n : Z) : exception + list Z :=
  let sz := Z.of_nat (length sv) in
  if pos >? sz then inl out_of_range
  else
    let rlen := Z.min n (wrap_size_t (sz - pos)) in
    inr (take (Z.to_nat rlen) (drop (Z.to_nat pos) sv)).

Definition eval_substr {S} (r : exception + list Z) : method S (list Z) :=
  match r with
  | inl e => throw e
  | inr sv => mret sv
  end.

(** [Traits::length(s)] through a pointer, read in the current state of
    the object. *)
Definition c_string_length_at {MaxSize} (s : const_pointer)
  : method (basic_inplace_string MaxSize) Z :=
  fun this =>
    match traits_length (cells_at s this) with
    | Some n => Returns n this
    | None => Undefined
    end.

(** [substr(pos, n)] of a view given by pointer and size. *)
Definition view_substr (sv : string_view) (pos n : Z) : exception + string_view :=
  if pos >? sv_size sv then inl out_of_range
  else inr {| sv_data := pointer_add (sv_data sv) pos;
              sv_size := Z.min n (wrap_size_t (sv_size sv - pos)) |}.

Definition eval_view_substr {S} (r : exception + string_view) : method S string_view :=
  match r with
  | inl e => throw e
  | inr sv => mret sv
  end.

(** [std::equal(first1, last1, first2, last2)] *)
Fixpoint std_equal (r1 r2 : list Z) : bool :=
  match r1, r2 with
  | [], [] => true
  | x :: r1', y :: r2' => (x =? y) && std_equal r1' r2'
  | _, _ => false
  end.

(** [std::lexicographical_compare(first1, last1, first2, last2)]:
    the loop runs while both ranges have elements and returns at the
    first position where [*first1 < *first2] or [*first2 < *first1];
    after it, the result is [first1 == last1 && first2 != last2]. *)
Fixpoint std_lexicographical_compare (r1 r2 : list Z) : bool :=
  match r1, r2 with
  | x :: r1', y :: r2' =>
      if x <? y then true
      else if y <? x then false
      else std_lexicographical_compare r1' r2'
  | [], _ :: _ => true
  | _, [] => false
  end.

(** The lexicographic order on sequences as the specification words it:
    the first position where the sequences differ decides, and a proper
    prefix is less than the longer sequence. *)
Inductive lexicographically_less : list Z -> list Z -> Prop :=
| less_proper_prefix (y : Z) (r2 : list Z) :
    lexicographically_less [] (y :: r2)
| less_first_difference (x y : Z) (r1 r2 : list Z) :
    x < y -> lexicographically_less (x :: r1) (y :: r2)
| less_after_equal (x : Z) (r1 r2 : list Z) :
    lexicographically_less r1 r2 -> lexicographically_less (x :: r1) (x :: r2).

(** Character codes of a literal, and the array of a string literal with
    its terminating zero. *)
Definition codes (s : string) : list Z :=
  map (fun a => Z.of_N (N_of_ascii a)) (list_ascii_of_string s).

Definition literal (s : string) : list Z := codes s ++ [0].

(** The range [[s, s + Traits::length(s))] of a null-terminated array. *)
Definition c_string_range (s : list Z) : option (list Z) :=
  n ← traits_length s; Some (take (Z.to_nat n) s).

(** The characters of a sequence that stand before its first zero
    character (all of them when it holds none). *)
Fixpoint until_zero (l : list Z) : list Z :=
  match l with
  | [] => []
  | c :: l' => if c =? 0 then [] else c :: until_zero l'
  end.

(** [os << s] for [s] of type [const CharT*], no field width set: the
    stream receives the characters of the array at [s] up to its first
    zero character. *)
Definition ostream_insert_c_string (os : list Z) (s : list Z) : option (list Z) :=
  r ← c_string_range s; Some (os ++ r).

(** ** Objects of [inplace_string<5>] used in the examples

    [storage5] is storage whose cells hold arbitrary values; [hello5] is
    the full string "hello", [hel5] the string "hel" with one vacated
    cell, [hel5'] the same string with another value in the vacated cell. *)

Definition storage5 : basic_inplace_string 5 :=
  Build_basic_inplace_string [7; 7; 7; 7; 7; 7].

Definition hello5 : basic_inplace_string 5 :=
  Build_basic_inplace_string [104; 101; 108; 108; 111; 0].

Definition hel5 : basic_inplace_string 5 :=
  Build_basic_inplace_string [104; 101; 108; 0; 7; 2].

Definition hel5' : basic_inplace_string 5 :=
  Build_basic_inplace_string [104; 101; 108; 0; 112; 2].

(** [a0b5] holds the three characters 'a', zero, 'b'; [empty5] is an
    empty string; [hel3] is the string "hel" of an [inplace_string<3>],
    full. *)
Definition a0b5 : basic_inplace_string 5 :=
  Build_basic_inplace_string [97; 0; 98; 0; 7; 2].

Definition empty5 : basic_inplace_string 5 :=
  Build_basic_inplace_string [0; 7; 7; 7; 7; 5].

Definition hel3 : basic_inplace_string 3 :=
  Build_basic_inplace_string [104; 101; 108; 0].

(** Storage for an [inplace_string<6>]. *)
Definition storage6 : basic_inplace_string 6 :=
  Build_basic_inplace_string [7; 7; 7; 7; 7; 7; 7].

Section CharT.

(** [sizeof(CharT)], whether [CharT] is a signed integer type, and
    whether the translation unit is compiled with [NDEBUG]. *)
Variable sizeof_CharT : Z.
Variable CharT_signed : bool.
Variable NDEBUG : bool.

(** Whether [_MSC_VER] is defined with [_ITERATOR_DEBUG_LEVEL != 0]:
    [iterator] is then [stdext::checked_array_iterator] and [begin()] is
    [iterator{data(), size()}]. *)
Variable checked_iterators : bool.

(** [detail::impl_size_type_helper<sizeof(CharT)>]:
    uint8_t, uint16_t or uint32_t. *)
Definition impl_size_bits : Z :=
  if sizeof_CharT =? 1 then 8 else if sizeof_CharT =? 2 then 16 else 32.

(** [std::numeric_limits<impl_size_type>::max()] *)
Definition impl_size_max : Z := 2 ^ impl_size_bits - 1.

(** [static_cast<impl_size_type>(x)] *)
Definition to_impl_size_type (x : Z) : Z := x mod 2 ^ impl_size_bits.

Definition CharT_bits : Z := 8 * sizeof_CharT.

(** Conversion of an integer value to [CharT]: modulo [2^CharT_bits],
    read as a two's complement value when [CharT] is signed. *)
Definition to_CharT (x : Z) : Z :=
  let m := x mod 2 ^ CharT_bits in
  if CharT_signed && (2 ^ (CharT_bits - 1) <=? m) then m - 2 ^ CharT_bits else m.

(** The character types of the standard have one, two or four bytes. *)
Definition standard_CharT : Prop :=
  sizeof_CharT = 1 \/ sizeof_CharT = 2 \/ sizeof_CharT = 4.

(** The class's [static_assert], together with [MaxSize] being a
    [std::size_t] template argument. *)
Definition static_assert_MaxSize (MaxSize : Z) : Prop :=
  0 <= MaxSize <= impl_size_max.

(** [assert(c)] *)
Definition assert_ {S} (c : bool) : method S unit :=
  fun this =>
    if NDEBUG then Returns tt this
    else if c then Returns tt this else AssertionFailed.

Section Members.

Context {MaxSize : Z}.
Local Abbreviation string_ := (basic_inplace_string MaxSize).

(** [constexpr size_type max_size() const { return MaxSize; }] *)
Definition max_size (this : string_) : Z := MaxSize.

(** [chars_.back()]: the last cell of the array, index [MaxSize]. *)
Definition back_cell (this : string_) : Z := array_get (chars_ this) MaxSize.

(** [size() const]:
    [max_size() - static_cast<impl_size_type>(chars_.back())] *)
Definition size (this : string_) : Z :=
  wrap_size_t (max_size this - to_impl_size_type (back_cell this)).

Definition length_ (this : string_) : Z := size this.

(** The value written into the last cell for a size [s]:
    [static_cast<impl_size_type>(max_size() - s)], converted to
    [CharT] by the assignment. *)
Definition encoded_size (s : Z) : Z :=
  to_CharT (to_impl_size_type (wrap_size_t (MaxSize - s))).

(** [size(size_type s)]: the length setter. *)
Definition set_size (s : Z) : method string_ unit :=
  fun this =>
    if s >? max_size this then Throws length_error this
    else
      let a1 := array_set (chars_ this) s 0 in
      let a2 := array_set a1 MaxSize (encoded_size s) in
      Returns tt (Build_basic_inplace_string a2).

(** Storing a run of characters at [data() + off]; the run has to stay
    inside the array. *)
Definition write_chars (off : Z) (run : list Z) : method string_ unit :=
  fun this =>
    if MaxSize + 1 <? off + Z.of_nat (length run) then Undefined
    else Returns tt (Build_basic_inplace_string
                       (list_inserts (Z.to_nat off) run (chars_ this))).

(** [traits_type::copy(data() + off, s, n)]: reads [n] characters of
    the array at [s]. *)
Definition traits_copy (off : Z) (s : list Z) (n : Z) : method string_ unit :=
  if Z.of_nat (length s) <? n then undefined
  else write_chars off (take (Z.to_nat n) s).

(** [traits_type::copy(data(), s, n)] with a pointer [s] that may point
    into [chars_]: the cells are read when the copy runs, after the
    stores that precede it in the caller.  The character traits require
    that [s] is not in [[data(), data() + n)]; a call that breaks the
    requirement has no defined result. *)
Definition traits_copy_to_data (s : const_pointer) (n : Z) : method string_ unit :=
  match s with
  | external a => traits_copy 0 a n
  | internal off =>
      if Z.of_nat off <? n then undefined
      else src ← gets (cells_at s); traits_copy 0 src n
  end.

(** [traits_type::assign(data() + off, n, c)] *)
Definition traits_assign (off : Z) (n : Z) (c : Z) : method string_ unit :=
  write_chars off (replicate (Z.to_nat n) c).

(** *** capacity *)

Definition resize (n : Z) (c : Z) : method string_ unit :=
  sz ← gets size;
  set_size n;;
  if n >? sz then traits_assign sz (wrap_size_t (n - sz)) c else mret tt.

(** [resize(n)] is [resize(n, value_type{})] *)
Definition resize1 (n : Z) : method string_ unit := resize n 0.

Definition clear : method string_ unit := set_size 0.

Definition empty (this : string_) : bool := size this =? 0.

(** *** element access: a [reference] is the index of the cell of
    [chars_] it designates *)

(** [operator[](pos)] is [*(begin() + pos)].  With [begin() = data()]
    the cell has to be one of the array.  A checked iterator over
    [size()] cells verifies the step and the dereference: they pass for
    [pos < size()] and abort the program otherwise. *)
Definition operator_index (pos : Z) : method string_ Z :=
  fun this =>
    if checked_iterators then
      if pos <? size this then Returns pos this else AssertionFailed
    else if pos <=? MaxSize then Returns pos this else Undefined.

Definition at_ (pos : Z) : method string_ Z :=
  fun this =>
    if pos >=? size this then Throws out_of_range this
    else operator_index pos this.

Definition front : method string_ Z := operator_index 0.

Definition back : method string_ Z :=
  sz ← gets size; operator_index (wrap_size_t (sz - 1)).

(** Reading and writing through a reference. *)
Definition load (r : Z) (this : string_) : Z := array_get (chars_ this) r.

Definition store (r : Z) (c : Z) : method string_ unit :=
  fun this => Returns tt (Build_basic_inplace_string (array_set (chars_ this) r c)).

(** *** append *)

(** [append(const_pointer s, size_type n)] *)
Definition append (s : list Z) (n : Z) : method string_ unit :=
  sz ← gets size;
  set_size (wrap_size_t (sz + n));;
  traits_copy sz s n.

(** [append(const_pointer s)] *)
Definition append_c_str (s : list Z) : method string_ unit :=
  n ← c_string_length s; append s n.

(** [append(size_type n, value_type c)] *)
Definition append_fill (n : Z) (c : Z) : method string_ unit :=
  sz ← gets size; resize (wrap_size_t (sz + n)) c.

(** [append(std::basic_string_view sv)] *)
Definition append_sv (sv : list Z) : method string_ unit :=
  append sv (Z.of_nat (length sv)).

(** [append(const T& t, size_type pos, size_type n)] *)
Definition append_sv_pos (sv : list Z) (pos n : Z) : method string_ unit :=
  sub ← eval_substr (substr sv pos n); append_sv sub.

(** [append(InputIterator first, InputIterator last)] *)
Definition append_range (r : list Z) : method string_ unit :=
  sz ← gets size;
  let count := Z.of_nat (length r) in
  set_size (wrap_size_t (sz + count));;
  traits_copy sz r count.

(** [append(std::initializer_list<CharT> il)] *)
Definition append_ilist (il : list Z) : method string_ unit := append_range il.

Definition push_back (c : Z) : method string_ unit := append_fill 1 c.

(** *** assign *)

(** [assign(const_pointer s, size_type count) noexcept] *)
Definition assign (s : const_pointer) (count : Z) : method string_ unit :=
  noexcept (assert_ (count <=? MaxSize);;
            set_size count;;
            traits_copy_to_data s count).

(** [assign(const_pointer s) noexcept] *)
Definition assign_c_str (s : const_pointer) : method string_ unit :=
  noexcept (n ← c_string_length_at s; assign s n).

(** [assign(std::basic_string_view sv)] *)
Definition assign_sv (sv : string_view) : method string_ unit :=
  assign (sv_data sv) (sv_size sv).

(** [assign(const T& t, size_type pos, size_type count)] *)
Definition assign_sv_pos (sv : string_view) (pos count : Z) : method string_ unit :=
  sub ← eval_view_substr (view_substr sv pos count); assign_sv sub.

(** [assign(std::initializer_list<CharT> ilist)]: the array of the list
    is not the object's. *)
Definition assign_ilist (il : list Z) : method string_ unit :=
  assign (external il) (Z.of_nat (length il)).

(** [assign(size_type count, CharT ch)] *)
Definition assign_fill (count : Z) (ch : Z) : method string_ unit :=
  assert_ (count <? npos);;
  assert_ (count <=? MaxSize);;
  set_size count;;
  traits_assign 0 count ch.

(** [assign(InputIt first, InputIt last)], [InputIt] not integral;
    [count] is [std::distance(first, last)]. *)
Definition assign_range (first : const_pointer) (count : Z) : method string_ unit :=
  set_size count;;
  sz ← gets size;
  traits_copy_to_data first sz.

(** *** constructors: they run on the storage of the new object, whose
    cells hold indeterminate values; no source can point into it *)

Definition ctor_default : method string_ unit := noexcept clear.

(** [basic_inplace_string(const_pointer s, size_type count) noexcept] *)
Definition ctor_ptr_count (s : list Z) (count : Z) : method string_ unit :=
  noexcept (assign (external s) count).

(** [basic_inplace_string(const_pointer s) noexcept] *)
Definition ctor_c_str (s : list Z) : method string_ unit :=
  noexcept (n ← c_string_length s; ctor_ptr_count s n).

(** [explicit basic_inplace_string(std::basic_string_view sv)] *)
Definition ctor_sv (sv : list Z) : method string_ unit :=
  ctor_ptr_count sv (Z.of_nat (length sv)).

(** [basic_inplace_string(const T& t, size_type pos, size_type n)] *)
Definition ctor_sv_pos_n (sv : list Z) (pos n : Z) : method string_ unit :=
  sub ← eval_substr (substr sv pos n); ctor_sv sub.

(** [basic_inplace_string(size_type n, value_type c)] *)
Definition ctor_fill (n : Z) (c : Z) : method string_ unit := assign_fill n c.

(** [basic_inplace_string(InputIterator begin, InputIterator end)] *)
Definition ctor_range (r : list Z) : method string_ unit :=
  assign_range (external r) (Z.of_nat (length r)).

(** [basic_inplace_string(std::initializer_list<CharT> ilist)] *)
Definition ctor_ilist (il : list Z) : method string_ unit :=
  assign (external il) (Z.of_nat (length il)).

(** *** assignment operators and [operator+=] *)

Definition operator_assign_sv (sv : string_view) : method string_ unit := assign_sv sv.
Definition operator_assign_c_str (s : const_pointer) : method string_ unit :=
  noexcept (assign_c_str s).
Definition operator_assign_char (c : Z) : method string_ unit :=
  noexcept (assign_fill 1 c).
Definition operator_assign_ilist (il : list Z) : method string_ unit :=
  assign (external il) (Z.of_nat (length il)).

Definition operator_plus_assign_sv (sv : list Z) : method string_ unit := append_sv sv.
Definition operator_plus_assign_c_str (s : list Z) : method string_ unit := append_c_str s.
Definition operator_plus_assign_char (c : Z) : method string_ unit := push_back c.
Definition operator_plus_assign_ilist (il : list Z) : method string_ unit := append_ilist il.

(** [swap(basic_inplace_string& other)]: [std::swap(chars_, other.chars_)] *)
Definition swap (this other : string_) : string_ * string_ :=
  (Build_basic_inplace_string (chars_ other), Build_basic_inplace_string (chars_ this)).

(** *** string operations *)

(** [data()] points at the first cell of [chars_]. *)
Definition data (this : string_) : list Z := chars_ this.
Definition c_str (this : string_) : list Z := data this.

(** [operator std::basic_string_view() const]: [{data(), size()}] *)
Definition operator_string_view (this : string_) : list Z :=
  take (Z.to_nat (size this)) (data this).

(** [to_string(v)]: [{v.data(), v.size()}] *)
Definition to_string (v : string_) : list Z :=
  take (Z.to_nat (size v)) (data v).

Definition to_sv (v : string_) : list Z :=
  take (Z.to_nat (size v)) (data v).

(** The range [[begin(), end())]: [begin()] is at [data()] and
    [end() = begin() + size()], a step that a checked iterator over
    [size()] cells allows. *)
Definition begin_end (this : string_) : list Z :=
  take (Z.to_nat (size this)) (data this).

(** *** relational operators, both operands of the same [MaxSize] *)

Definition operator_eq (lhs rhs : string_) : bool :=
  std_equal (begin_end lhs) (begin_end rhs).
Definition operator_ne (lhs rhs : string_) : bool := negb (operator_eq lhs rhs).
Definition operator_lt (lhs rhs : string_) : bool :=
  std_lexicographical_compare (begin_end lhs) (begin_end rhs).
Definition operator_le (lhs rhs : string_) : bool := negb (operator_lt rhs lhs).
Definition operator_gt (lhs rhs : string_) : bool := operator_lt rhs lhs.
Definition operator_ge (lhs rhs : string_) : bool := negb (operator_lt lhs rhs).

(** *** the invariants of the data model *)

Definition invariant (this : string_) : Prop :=
  array_ok this /\
  0 <= size this <= MaxSize /\
  chars_ this !! Z.to_nat (size this) = Some 0 /\
  chars_ this !! Z.to_nat MaxSize = Some (encoded_size (size this)).

End Members.

(** *** members that take a string of another capacity *)

(** [basic_inplace_string(const basic_inplace_string<CharT, OtherMaxSize,
    Traits>& str, size_type pos)] *)
Definition ctor_str_pos {MaxSize OtherMaxSize}
    (str : basic_inplace_string OtherMaxSize) (pos : Z)
  : method (basic_inplace_string MaxSize) unit :=
  sub ← eval_substr (substr (operator_string_view str) pos npos); ctor_sv sub.

(** [basic_inplace_string(const basic_inplace_string<CharT, OtherMaxSize,
    Traits>& str, size_type pos, size_type n)] *)
Definition ctor_str_pos_n {MaxSize OtherMaxSize}
    (str : basic_inplace_string OtherMaxSize) (pos n : Z)
  : method (basic_inplace_string MaxSize) unit :=
  sub ← eval_substr (substr (operator_string_view str) pos n); ctor_sv sub.

(** [append(const basic_inplace_string<CharT, OtherMaxSize, Traits>& str)] *)
Definition append_str {MaxSize OtherMaxSize}
    (str : basic_inplace_string OtherMaxSize)
  : method (basic_inplace_string MaxSize) unit :=
  append (data str) (size str).

(** [assign(const basic_inplace_string<CharT, OtherMaxSize, Traits>& str)]
    for [str] another object than the target. *)
Definition assign_str {MaxSize OtherMaxSize}
    (str : basic_inplace_string OtherMaxSize)
  : method (basic_inplace_string MaxSize) unit :=
  assign (external (data str)) (size str).

(** *** comparison with a C-style string: the end of the array at the
    pointer is found by [Traits::length]; there is no result when the
    array holds no zero character *)

(** [operator==(const CharT* lhs, const basic_inplace_string& rhs)] *)
Definition operator_eq_ptr_str {MaxSize} (lhs : list Z)
    (rhs : basic_inplace_string MaxSize) : option bool :=
  l ← c_string_range lhs; Some (std_equal l (begin_end rhs)).

(** [operator==(const basic_inplace_string& lhs, const CharT* rhs)] *)
Definition operator_eq_str_ptr {MaxSize} (lhs : basic_inplace_string MaxSize)
    (rhs : list Z) : option bool :=
  r ← c_string_range rhs; Some (std_equal (begin_end lhs) r).

(** [operator!=]: [!(lhs == rhs)] *)
Definition operator_ne_ptr_str {MaxSize} (lhs : list Z)
    (rhs : basic_inplace_string MaxSize) : option bool :=
  negb <$> operator_eq_ptr_str lhs rhs.

Definition operator_ne_str_ptr {MaxSize} (lhs : basic_inplace_string MaxSize)
    (rhs : list Z) : option bool :=
  negb <$> operator_eq_str_ptr lhs rhs.

(** [operator<(const CharT* lhs, const basic_inplace_string& rhs)] *)
Definition operator_lt_ptr_str {MaxSize} (lhs : list Z)
    (rhs : basic_inplace_string MaxSize) : option bool :=
  l ← c_string_range lhs; Some (std_lexicographical_compare l (begin_end rhs)).

(** [operator<(const basic_inplace_string& lhs, const CharT* rhs)] *)
Definition operator_lt_str_ptr {MaxSize} (lhs : basic_inplace_string MaxSize)
    (rhs : list Z) : option bool :=
  r ← c_string_range rhs; Some (std_lexicographical_compare (begin_end lhs) r).

(** [operator<=]: [!(rhs < lhs)] *)
Definition operator_le_ptr_str {MaxSize} (lhs : list Z)
    (rhs : basic_inplace_string MaxSize) : option bool :=
  negb <$> operator_lt_str_ptr rhs lhs.

Definition operator_le_str_ptr {MaxSize} (lhs : basic_inplace_string MaxSize)
    (rhs : list Z) : option bool :=
  negb <$> operator_lt_ptr_str rhs lhs.

(** [operator>]: [rhs < lhs] *)
Definition operator_gt_ptr_str {MaxSize} (lhs : list Z)
    (rhs : basic_inplace_string MaxSize) : option bool :=
  operator_lt_str_ptr rhs lhs.

Definition operator_gt_str_ptr {MaxSize} (lhs : basic_inplace_string MaxSize)
    (rhs : list Z) : option bool :=
  operator_lt_ptr_str rhs lhs.

(** [operator>=]: [!(lhs < rhs)] *)
Definition operator_ge_ptr_str {MaxSize} (lhs : list Z)
    (rhs : basic_inplace_string MaxSize) : option bool :=
  negb <$> operator_lt_ptr_str lhs rhs.

Definition operator_ge_str_ptr {MaxSize} (lhs : basic_inplace_string MaxSize)
    (rhs : list Z) : option bool :=
  negb <$> operator_lt_str_ptr lhs rhs.

(** [operator<<(os, v)]: [os << v.data()] *)
Definition operator_shl {MaxSize} (os : list Z) (v : basic_inplace_string MaxSize)
  : option (list Z) :=
  ostream_insert_c_string os (data v).

(** ** The public interface as data

    [constructor] lists the ways of creating an object, [operation] the
    member functions that can be called on an existing one; [construct]
    and [call] run them.  [store_at pos c] is the assignment
    [s.at(pos) = c] through the reference that [at] returns. *)

Inductive constructor (MaxSize : Z) : Type :=
| new_default
| new_copy (other : basic_inplace_string MaxSize)
| new_str_pos {OtherMaxSize : Z} (str : basic_inplace_string OtherMaxSize) (pos : Z)
| new_str_pos_n {OtherMaxSize : Z} (str : basic_inplace_string OtherMaxSize) (pos n : Z)
| new_sv_pos_n (sv : list Z) (pos n : Z)
| new_sv (sv : list Z)
| new_ptr_count (s : list Z) (count : Z)
| new_c_str (s : list Z)
| new_fill (n c : Z)
| new_range (r : list Z)
| new_ilist (il : list Z).

Inductive operation (MaxSize : Z) : Type :=
| call_operator_assign_copy (other : basic_inplace_string MaxSize)
| call_operator_assign_sv (sv : string_view)
| call_operator_assign_c_str (s : const_pointer)
| call_operator_assign_char (c : Z)
| call_operator_assign_ilist (il : list Z)
| call_set_size (s : Z)
| call_resize (n c : Z)
| call_resize1 (n : Z)
| call_clear
| call_operator_index (pos : Z)
| call_at (pos : Z)
| call_front
| call_back
| store_at (pos c : Z)
| call_operator_plus_assign_sv (sv : list Z)
| call_operator_plus_assign_c_str (s : list Z)
| call_operator_plus_assign_char (c : Z)
| call_operator_plus_assign_ilist (il : list Z)
| call_append_str {OtherMaxSize : Z} (str : basic_inplace_string OtherMaxSize)
| call_append_sv (sv : list Z)
| call_append_sv_pos (sv : list Z) (pos n : Z)
| call_append (s : list Z) (n : Z)
| call_append_c_str (s : list Z)
| call_append_fill (n c : Z)
| call_append_range (r : list Z)
| call_append_ilist (il : list Z)
| call_push_back (c : Z)
| call_assign_str {OtherMaxSize : Z} (str : basic_inplace_string OtherMaxSize)
| call_assign_sv (sv : string_view)
| call_assign_sv_pos (sv : string_view) (pos count : Z)
| call_assign (s : const_pointer) (count : Z)
| call_assign_c_str (s : const_pointer)
| call_assign_ilist (il : list Z)
| call_assign_fill (count ch : Z)
| call_assign_range (first : const_pointer) (count : Z).

Arguments new_default {MaxSize}.
Arguments new_copy {MaxSize} other.
Arguments new_str_pos {MaxSize OtherMaxSize} str pos.
Arguments new_str_pos_n {MaxSize OtherMaxSize} str pos n.
Arguments new_sv_pos_n {MaxSize} sv pos n.
Arguments new_sv {MaxSize} sv.
Arguments new_ptr_count {MaxSize} s count.
Arguments new_c_str {MaxSize} s.
Arguments new_fill {MaxSize} n c.
Arguments new_range {MaxSize} r.
Arguments new_ilist {MaxSize} il.

Definition discard {S A} (m : method S A) : method S unit := m;; mret tt.

(** The copy constructor and copy assignment are defaulted: they copy
    [chars_]. *)
Definition copy_from {MaxSize} (other : basic_inplace_string MaxSize)
  : method (basic_inplace_string MaxSize) unit :=
  fun _ => Returns tt (Build_basic_inplace_string (chars_ other)).

Definition construct {MaxSize} (c : constructor MaxSize)
  : method (basic_inplace_string MaxSize) unit :=
  match c with
  | new_default => ctor_default
  | new_copy other => copy_from other
  | new_str_pos str pos => ctor_str_pos str pos
  | new_str_pos_n str pos n => ctor_str_pos_n str pos n
  | new_sv_pos_n sv pos n => ctor_sv_pos_n sv pos n
  | new_sv sv => ctor_sv sv
  | new_ptr_count s count => ctor_ptr_count s count
  | new_c_str s => ctor_c_str s
  | new_fill n c => ctor_fill n c
  | new_range r => ctor_range r
  | new_ilist il => ctor_ilist il
  end.

Definition call {MaxSize} (op : operation MaxSize)
  : method (basic_inplace_string MaxSize) unit :=
  match op with
  | call_operator_assign_copy _ other => copy_from other
  | call_operator_assign_sv _ sv => operator_assign_sv sv
  | call_operator_assign_c_str _ s => operator_assign_c_str s
  | call_operator_assign_char _ c => operator_assign_char c
  | call_operator_assign_ilist _ il => operator_assign_ilist il
  | call_set_size _ s => set_size s
  | call_resize _ n c => resize n c
  | call_resize1 _ n => resize1 n
  | call_clear _ => clear
  | call_operator_index _ pos => discard (operator_index pos)
  | call_at _ pos => discard (at_ pos)
  | call_front _ => discard front
  | call_back _ => discard back
  | store_at _ pos c => r ← at_ pos; store r c
  | call_operator_plus_assign_sv _ sv => operator_plus_assign_sv sv
  | call_operator_plus_assign_c_str _ s => operator_plus_assign_c_str s
  | call_operator_plus_assign_char _ c => operator_plus_assign_char c
  | call_operator_plus_assign_ilist _ il => operator_plus_assign_ilist il
  | call_append_str _ str => append_str str
  | call_append_sv _ sv => append_sv sv
  | call_append_sv_pos _ sv pos n => append_sv_pos sv pos n
  | call_append _ s n => append s n
  | call_append_c_str _ s => append_c_str s
  | call_append_fill _ n c => append_fill n c
  | call_append_range _ r => append_range r
  | call_append_ilist _ il => append_ilist il
  | call_push_back _ c => push_back c
  | call_assign_str _ str => assign_str str
  | call_assign_sv _ sv => assign_sv sv
  | call_assign_sv_pos _ sv pos count => assign_sv_pos sv pos count
  | call_assign _ s count => assign s count
  | call_assign_c_str _ s => assign_c_str s
  | call_assign_ilist _ il => assign_ilist il
  | call_assign_fill _ count ch => assign_fill count ch
  | call_assign_range _ first count => assign_range first count
  end.

(** The arguments of type [size_type] of a call. *)
Definition constructor_sizes {MaxSize} (c : constructor MaxSize) : list Z :=
  match c with
  | new_str_pos _ pos => [pos]
  | new_str_pos_n _ pos n | new_sv_pos_n _ pos n => [pos; n]
  | new_ptr_count _ count => [count]
  | new_fill n _ => [n]
  | _ => []
  end.

Definition operation_sizes {MaxSize} (op : operation MaxSize) : list Z :=
  match op with
  | call_set_size _ s => [s]
  | call_resize _ n _ | call_resize1 _ n => [n]
  | call_operator_index _ pos | call_at _ pos | store_at _ pos _ => [pos]
  | call_append_sv_pos _ _ pos n => [pos; n]
  | call_assign_sv_pos _ sv pos n => [sv_size sv; pos; n]
  | call_assign_sv _ sv | call_operator_assign_sv _ sv => [sv_size sv]
  | call_assign_range _ _ count => [count]
  | call_append _ _ n | call_append_fill _ n _ => [n]
  | call_assign _ _ count | call_assign_fill _ count _ => [count]
  | _ => []
  end.

(** What has to hold of the objects a call reads: a copied object
    satisfies the invariants of its own. *)
Definition constructor_sources_ok {MaxSize} (c : constructor MaxSize) : Prop :=
  match c with
  | new_copy other => invariant other
  | _ => True
  end.

Definition operation_sources_ok {MaxSize} (op : operation MaxSize) : Prop :=
  match op with
  | call_operator_assign_copy _ other => invariant other
  | _ => True
  end.

(** ** Hoare triples for member functions (partial correctness: the
    postcondition is asked of the normal return only) *)

Definition hoare {S A} (P : S -> Prop) (m : method S A) (Q : A -> S -> Prop) : Prop :=
  forall this, P this ->
    match m this with
    | Returns a this' => Q a this'
    | _ => True
    end.

(** [establishes] is for the member functions that set the size first and
    so work on any storage, [preserves] for those that rely on the
    current size. *)
Definition establishes_invariant (MaxSize : Z) {A}
    (m : method (basic_inplace_string MaxSize) A) : Prop :=
  hoare array_ok m (fun _ => invariant).

Definition preserves_invariant (MaxSize : Z) {A}
    (m : method (basic_inplace_string MaxSize) A) : Prop :=
  hoare invariant m (fun _ => invariant).

(** ** Arithmetic of the size encoding *)

Hypothesis CharT_is_standard : standard_CharT.

Lemma wrap_size_t_small (x : Z) : 0 <= x <= SIZE_MAX -> wrap_size_t x = x.
Proof.
  unfold wrap_size_t, SIZE_MAX, size_t_bits. intros Hx.
  apply Z.mod_small. lia.
Qed.

Lemma wrap_size_t_range (x : Z) : 0 <= wrap_size_t x <= SIZE_MAX.
Proof.
  unfold wrap_size_t, SIZE_MAX, size_t_bits.
  pose proof (Z.mod_pos_bound x (2 ^ 64) ltac:(lia)). lia.
Qed.

Lemma impl_size_bits_CharT_bits :
  impl_size_bits = CharT_bits /\
  (impl_size_bits = 8 \/ impl_size_bits = 16 \/ impl_size_bits = 32).
Proof.
  unfold impl_size_bits, CharT_bits.
  destruct CharT_is_standard as [-> | [-> | ->]]; simpl; split; auto.
Qed.

Lemma impl_size_max_lt_SIZE_MAX : 0 < impl_size_max < SIZE_MAX.
Proof.
  unfold impl_size_max, SIZE_MAX, size_t_bits.
  destruct impl_size_bits_CharT_bits as [_ [-> | [-> | ->]]]; lia.
Qed.

Lemma to_impl_size_type_to_CharT (x : Z) :
  0 <= x <= impl_size_max -> to_impl_size_type (to_CharT x) = x.
Proof.
  unfold to_impl_size_type, to_CharT, impl_size_max.
  destruct impl_size_bits_CharT_bits as [<- Hbits]. intros Hx.
  assert (Hpos : 0 < 2 ^ impl_size_bits)
    by (destruct Hbits as [-> | [-> | ->]]; lia).
  rewrite (Z.mod_small x) by lia.
  destruct (CharT_signed && (2 ^ (impl_size_bits - 1) <=? x))%bool.
  - replace (x - 2 ^ impl_size_bits) with (x + (-1) * 2 ^ impl_size_bits) by lia.
    rewrite Z.mod_add by lia. apply Z.mod_small. lia.
  - apply Z.mod_small. lia.
Qed.

Lemma to_CharT_0 : to_CharT 0 = 0.
Proof.
  unfold to_CharT. destruct impl_size_bits_CharT_bits as [<- Hbits].
  rewrite Z.mod_0_l by (destruct Hbits as [-> | [-> | ->]]; lia).
  replace (2 ^ (impl_size_bits - 1) <=? 0) with false.
  - now rewrite andb_false_r.
  - symmetry. apply Z.leb_gt. destruct Hbits as [-> | [-> | ->]]; lia.
Qed.

(** ** Rules of the triples *)

Lemma hoare_bind {S A B} (P : S -> Prop) (Q : A -> S -> Prop) (R : B -> S -> Prop)
    (m : method S A) (k : A -> method S B) :
  hoare P m Q -> (forall a, hoare (Q a) (k a) R) -> hoare P (m ≫= k) R.
Proof.
  intros Hm Hk this HP. specialize (Hm this HP).
  unfold mbind, method_bind.
  destruct (m this) as [a this' | | | |]; try exact I.
  apply (Hk a this' Hm).
Qed.

Lemma hoare_weaken {S A} (P P' : S -> Prop) (Q Q' : A -> S -> Prop) (m : method S A) :
  hoare P' m Q' -> (forall this, P this -> P' this) ->
  (forall a this, Q' a this -> Q a this) -> hoare P m Q.
Proof.
  intros Hm HP HQ this H. specialize (Hm this (HP this H)).
  destruct (m this); auto.
Qed.

Lemma hoare_pre {S A} (P P' : S -> Prop) (Q : A -> S -> Prop) (m : method S A) :
  hoare P' m Q -> (forall this, P this -> P' this) -> hoare P m Q.
Proof. intros Hm HP. apply (hoare_weaken P P' Q Q m Hm HP). auto. Qed.

Lemma hoare_ret {S A} (P : S -> Prop) (a : A) : hoare P (mret a) (fun _ => P).
Proof. intros this HP. exact HP. Qed.

Lemma hoare_gets {S A} (P : S -> Prop) (f : S -> A) :
  hoare P (gets f) (fun a this => P this /\ a = f this).
Proof. intros this HP. split; [exact HP | reflexivity]. Qed.

Lemma hoare_throw {S A} (P : S -> Prop) (Q : A -> S -> Prop) (e : exception) :
  hoare P (throw e) Q.
Proof. intros this HP. exact I. Qed.

Lemma hoare_undefined {S A} (P : S -> Prop) (Q : A -> S -> Prop) :
  hoare P undefined Q.
Proof. intros this HP. exact I. Qed.

Lemma hoare_noexcept {S A} (P : S -> Prop) (Q : A -> S -> Prop) (m : method S A) :
  hoare P m Q -> hoare P (noexcept m) Q.
Proof.
  intros Hm this HP. specialize (Hm this HP). unfold noexcept.
  destruct (m this); auto.
Qed.

Lemma hoare_assert {S} (P : S -> Prop) (c : bool) :
  hoare P (assert_ c) (fun _ => P).
Proof.
  intros this HP. unfold assert_. destruct NDEBUG; [exact HP |].
  destruct c; [exact HP | exact I].
Qed.

Lemma hoare_discard {S A} (P Q : S -> Prop) (m : method S A) :
  hoare P m (fun _ => Q) -> hoare P (discard m) (fun _ => Q).
Proof.
  intros Hm. unfold discard. eapply hoare_bind; [exact Hm |].
  intros a. apply hoare_ret.
Qed.

Lemma hoare_eval_substr {S} (P : S -> Prop) (r : exception + list Z) :
  hoare P (eval_substr r) (fun _ => P).
Proof. destruct r; [apply hoare_throw | apply hoare_ret]. Qed.

Lemma traits_length_bounds (s : list Z) (n : Z) :
  traits_length s = Some n -> 0 <= n < Z.of_nat (length s).
Proof.
  revert n. induction s as [| c s IH]; intros n; simpl; [discriminate |].
  destruct (c =? 0).
  - intros [= Hn]. lia.
  - destruct (traits_length s) as [m |]; simpl; [| discriminate].
    intros [= Hn]. specialize (IH m eq_refl). lia.
Qed.

Lemma traits_length_app (s rest : list Z) :
  Forall (fun c => c <> 0) s ->
  traits_length (s ++ 0 :: rest) = Some (Z.of_nat (length s)).
Proof.
  induction 1 as [| c s Hc Hs IH]; [reflexivity |].
  cbn [app traits_length length]. rewrite (proj2 (Z.eqb_neq c 0) Hc), IH.
  simpl. f_equal. lia.
Qed.

Lemma hoare_c_string_length {S} (P : S -> Prop) (s : list Z) :
  hoare P (c_string_length s) (fun n this => P this /\ 0 <= n).
Proof.
  unfold c_string_length. destruct (traits_length s) as [n |] eqn:E.
  - intros this HP. split; [exact HP |]. apply traits_length_bounds in E. lia.
  - apply hoare_undefined.
Qed.

(** ** Stores of a run of cells *)

Lemma list_inserts_decompose (off : nat) (run l : list Z) :
  (off + length run <= length l)%nat ->
  list_inserts off run l = take off l ++ run ++ drop (off + length run) l.
Proof.
  intros Hfit.
  rewrite <- (take_drop off l) at 1.
  assert (Hoff : length (take off l) = off) by (rewrite length_take; lia).
  rewrite <- Hoff at 1. rewrite <- (Nat.add_0_r (length (take off l))).
  rewrite list_inserts_app_r. f_equal.
  rewrite <- (take_drop (length run) (drop off l)) at 1.
  rewrite list_inserts_0_r by (rewrite length_take, length_drop; lia).
  now rewrite drop_drop.
Qed.

Lemma take_list_inserts_below (off n : nat) (run l : list Z) :
  (n <= off)%nat -> take n (list_inserts off run l) = take n l.
Proof.
  intros Hn. apply list_eq. intros i.
  destruct (decide (i < n)%nat) as [Hi | Hi].
  - rewrite !lookup_take_lt by lia. apply list_lookup_inserts_lt. lia.
  - rewrite !lookup_take_ge by lia. reflexivity.
Qed.

Lemma take_drop_list_inserts (off : nat) (run l : list Z) :
  (off + length run <= length l)%nat ->
  take (length run) (drop off (list_inserts off run l)) = run.
Proof.
  intros Hfit. rewrite list_inserts_decompose by exact Hfit.
  rewrite drop_app_length' by (rewrite length_take; lia).
  apply take_app_length.
Qed.

Lemma take_ext_lookup (n : nat) (l1 l2 : list Z) :
  (forall i, (i < n)%nat -> l1 !! i = l2 !! i) -> take n l1 = take n l2.
Proof.
  intros H. apply list_eq. intros i.
  destruct (decide (i < n)%nat) as [Hi | Hi].
  - rewrite !lookup_take_lt by lia. now apply H.
  - rewrite !lookup_take_ge by lia. reflexivity.
Qed.

Section Capacity.

Variable MaxSize : Z.
Hypothesis MaxSize_ok : static_assert_MaxSize MaxSize.

Local Abbreviation string_ := (basic_inplace_string MaxSize).
Local Abbreviation establishes := (establishes_invariant MaxSize).
Local Abbreviation preserves := (preserves_invariant MaxSize).

Lemma MaxSize_bounds : 0 <= MaxSize <= impl_size_max /\ MaxSize < SIZE_MAX.
Proof.
  pose proof impl_size_max_lt_SIZE_MAX. unfold static_assert_MaxSize in MaxSize_ok. lia.
Qed.

Lemma decode_encoded_size (s : Z) :
  0 <= s <= MaxSize ->
  to_impl_size_type (@encoded_size MaxSize s) = MaxSize - s.
Proof.
  intros Hs. pose proof MaxSize_bounds. unfold encoded_size.
  rewrite wrap_size_t_small by lia.
  assert (Hin : to_impl_size_type (MaxSize - s) = MaxSize - s).
  { unfold to_impl_size_type. apply Z.mod_small. unfold impl_size_max in *. lia. }
  rewrite Hin. apply to_impl_size_type_to_CharT. lia.
Qed.

Lemma encoded_size_full : @encoded_size MaxSize MaxSize = 0.
Proof.
  unfold encoded_size. rewrite Z.sub_diag.
  change (wrap_size_t 0) with 0. unfold to_impl_size_type.
  destruct impl_size_bits_CharT_bits as [_ Hbits].
  rewrite Z.mod_0_l by (destruct Hbits as [-> | [-> | ->]]; lia).
  apply to_CharT_0.
Qed.

(** *** The two primitives: the length setter and the raw stores *)

Lemma size_range (this : string_) : 0 <= size this <= SIZE_MAX.
Proof. apply wrap_size_t_range. Qed.

Lemma size_of_back (this : string_) (s : Z) :
  0 <= s <= MaxSize ->
  chars_ this !! Z.to_nat MaxSize = Some (@encoded_size MaxSize s) ->
  size this = s.
Proof.
  intros Hs Hback. pose proof MaxSize_bounds.
  unfold size, max_size, back_cell, array_get.
  rewrite (list_lookup_total_correct _ _ _ Hback).
  rewrite decode_encoded_size by lia.
  rewrite wrap_size_t_small by lia. lia.
Qed.

Lemma set_size_throws (this : string_) (s : Z) :
  s > MaxSize -> set_size s this = Throws length_error this.
Proof.
  intros Hs. unfold set_size, max_size.
  destruct (s >? MaxSize) eqn:E; [reflexivity | lia].
Qed.

Lemma set_size_returns (this : string_) (s : Z) :
  s <= MaxSize ->
  set_size s this =
    Returns tt (Build_basic_inplace_string
      (array_set (array_set (chars_ this) s 0) MaxSize (@encoded_size MaxSize s))).
Proof.
  intros Hs. unfold set_size, max_size.
  destruct (s >? MaxSize) eqn:E; [lia | reflexivity].
Qed.

Lemma set_size_establishes (this : string_) (s : Z) :
  array_ok this -> 0 <= s <= MaxSize ->
  let this' : string_ :=
    Build_basic_inplace_string
      (array_set (array_set (chars_ this) s 0) MaxSize (@encoded_size MaxSize s)) in
  invariant this' /\ size this' = s.
Proof.
  intros Hlen Hs this'. pose proof MaxSize_bounds as HM.
  unfold array_ok in Hlen.
  assert (Hback : chars_ this' !! Z.to_nat MaxSize = Some (@encoded_size MaxSize s)).
  { subst this'. cbn [chars_]. unfold array_set.
    apply list_lookup_insert_eq. rewrite length_insert. lia. }
  assert (Hsz : size this' = s) by (apply size_of_back; [lia | exact Hback]).
  split; [| exact Hsz].
  unfold invariant. rewrite Hsz. repeat split; try lia.
  - unfold array_ok. subst this'. cbn [chars_]. unfold array_set.
    rewrite !length_insert. exact Hlen.
  - destruct (decide (s = MaxSize)) as [-> | Hne].
    + rewrite Hback. now rewrite encoded_size_full.
    + subst this'. cbn [chars_]. unfold array_set.
      rewrite list_lookup_insert_ne by lia.
      apply list_lookup_insert_eq. lia.
  - exact Hback.
Qed.

Lemma write_chars_returns (this : string_) (off : Z) (run : list Z) :
  off + Z.of_nat (length run) <= MaxSize + 1 ->
  write_chars off run this =
    Returns tt (Build_basic_inplace_string
                  (list_inserts (Z.to_nat off) run (chars_ this))).
Proof.
  intros H. unfold write_chars.
  destruct (MaxSize + 1 <? off + Z.of_nat (length run)) eqn:E; [lia | reflexivity].
Qed.

(** A store that stays below the current size keeps the terminator and
    the last cell, hence the size and the invariants. *)
Lemma write_below_size (this : string_) (off : Z) (run : list Z) :
  invariant this -> 0 <= off ->
  off + Z.of_nat (length run) <= size this ->
  let this' : string_ :=
    Build_basic_inplace_string (list_inserts (Z.to_nat off) run (chars_ this)) in
  invariant this' /\ size this' = size this.
Proof.
  intros (Hlen & Hsz & Hterm & Hback) Hoff Hrun this'.
  assert (Hback' : chars_ this' !! Z.to_nat MaxSize
                   = Some (@encoded_size MaxSize (size this))).
  { subst this'. cbn [chars_].
    rewrite list_lookup_inserts_ge by lia. exact Hback. }
  assert (Hsz' : size this' = size this) by (apply size_of_back; [lia | exact Hback']).
  split; [| exact Hsz'].
  unfold invariant. rewrite Hsz'. repeat split; try lia.
  - unfold array_ok in *. subst this'. cbn [chars_].
    rewrite length_inserts. exact Hlen.
  - subst this'. cbn [chars_].
    rewrite list_lookup_inserts_ge by lia. exact Hterm.
  - exact Hback'.
Qed.

Lemma invariant_full (this : string_) :
  invariant this -> size this = MaxSize ->
  chars_ this !! Z.to_nat MaxSize = Some 0 /\ @encoded_size MaxSize (size this) = 0.
Proof.
  intros (_ & _ & Hterm & _) Hfull. rewrite Hfull in *.
  split; [exact Hterm | apply encoded_size_full].
Qed.

(** *** Triples of the primitives *)

Lemma hoare_pure {A} (P : string_ -> Prop) (F : Prop) (m : method string_ A)
    (Q : A -> string_ -> Prop) :
  (forall this, P this -> F) -> (F -> hoare P m Q) -> hoare P m Q.
Proof. intros HF Hm this HP. exact (Hm (HF this HP) this HP). Qed.

Lemma hoare_set_size (s : Z) :
  0 <= s ->
  hoare array_ok (set_size s) (fun _ (this : string_) => invariant this /\ size this = s).
Proof.
  intros Hs this Hok. destruct (Z_le_gt_dec s MaxSize) as [Hle | Hgt].
  - rewrite set_size_returns by exact Hle.
    apply set_size_establishes; [exact Hok | lia].
  - now rewrite set_size_throws.
Qed.

Lemma hoare_write_chars (n off : Z) (run : list Z) :
  0 <= off ->
  (off + Z.of_nat (length run) <= MaxSize + 1 -> off + Z.of_nat (length run) <= n) ->
  hoare (fun this : string_ => invariant this /\ size this = n) (write_chars off run)
        (fun _ (this : string_) => invariant this /\ size this = n).
Proof.
  intros Hoff Hrun this [Hinv Hsz]. unfold write_chars.
  destruct (MaxSize + 1 <? off + Z.of_nat (length run)) eqn:E; [exact I |].
  rewrite <- Hsz. apply write_below_size; [exact Hinv | exact Hoff | lia].
Qed.

Lemma hoare_traits_copy (n off : Z) (s : list Z) (cnt : Z) :
  0 <= off -> 0 <= cnt ->
  (off + cnt <= MaxSize + 1 -> off + cnt <= n) ->
  hoare (fun this : string_ => invariant this /\ size this = n) (traits_copy off s cnt)
        (fun _ (this : string_) => invariant this /\ size this = n).
Proof.
  intros Hoff Hcnt Hfit. unfold traits_copy.
  destruct (Z.of_nat (length s) <? cnt) eqn:E; [apply hoare_undefined |].
  apply hoare_write_chars; [exact Hoff |]. rewrite length_take. lia.
Qed.

Lemma hoare_traits_copy_to_data (n : Z) (s : const_pointer) (cnt : Z) :
  0 <= cnt ->
  (cnt <= MaxSize + 1 -> cnt <= n) ->
  hoare (fun this : string_ => invariant this /\ size this = n)
        (traits_copy_to_data s cnt)
        (fun _ (this : string_) => invariant this /\ size this = n).
Proof.
  intros Hcnt Hfit. unfold traits_copy_to_data.
  destruct s as [a | off]; [apply (hoare_traits_copy n 0 a cnt); lia |].
  destruct (Z.of_nat off <? cnt); [apply hoare_undefined |].
  eapply hoare_bind; [apply hoare_gets |]. intros src. cbv beta.
  eapply hoare_pre; [apply (hoare_traits_copy n 0 src cnt); lia |].
  now intros this [H _].
Qed.

Lemma hoare_c_string_length_at (P : string_ -> Prop) (s : const_pointer) :
  hoare P (c_string_length_at s) (fun n (this : string_) => P this /\ 0 <= n).
Proof.
  intros this HP. unfold c_string_length_at.
  destruct (traits_length (cells_at s this)) as [n |] eqn:E; [| exact I].
  split; [exact HP |]. apply traits_length_bounds in E. lia.
Qed.

Lemma hoare_eval_view_substr (P : string_ -> Prop) (sv : string_view) (pos n : Z) :
  0 <= n ->
  hoare P (eval_view_substr (view_substr sv pos n))
        (fun sub (this : string_) => P this /\ 0 <= sv_size sub).
Proof.
  intros Hn. unfold view_substr.
  destruct (pos >? sv_size sv); [apply hoare_throw |].
  intros this HP. split; [exact HP |]. cbn [sv_size].
  pose proof (wrap_size_t_range (sv_size sv - pos)). lia.
Qed.

Lemma hoare_traits_assign (n off cnt c : Z) :
  0 <= off -> 0 <= cnt ->
  (off + cnt <= MaxSize + 1 -> off + cnt <= n) ->
  hoare (fun this : string_ => invariant this /\ size this = n) (traits_assign off cnt c)
        (fun _ (this : string_) => invariant this /\ size this = n).
Proof.
  intros Hoff Hcnt Hfit. unfold traits_assign.
  apply hoare_write_chars; [exact Hoff |]. rewrite length_replicate. lia.
Qed.

(** *** Triples of the member functions *)

Lemma invariant_array_ok (this : string_) : invariant this -> array_ok this.
Proof. now intros [H _]. Qed.

Lemma establishes_preserves {A} (m : method string_ A) : establishes m -> preserves m.
Proof.
  intros Hm. eapply hoare_weaken; [exact Hm | exact invariant_array_ok | auto].
Qed.

Lemma drop_size {A} (P : string_ -> Prop) (m : method string_ A) (n : Z) :
  hoare P m (fun _ (this : string_) => invariant this /\ size this = n) ->
  hoare P m (fun _ => invariant).
Proof. intros Hm. eapply hoare_weaken; [exact Hm | auto | now intros _ this [H _]]. Qed.

Lemma set_size_establishes_invariant (s : Z) : 0 <= s -> establishes (set_size s).
Proof. intros Hs. eapply drop_size. now apply hoare_set_size. Qed.

Lemma assign_establishes (s : const_pointer) (count : Z) :
  0 <= count -> establishes (assign s count).
Proof.
  intros Hc. unfold establishes_invariant, assign. apply hoare_noexcept.
  eapply hoare_bind; [apply hoare_assert |]. intros [].
  eapply hoare_bind; [apply (hoare_set_size count Hc) |]. intros [].
  eapply drop_size. apply hoare_traits_copy_to_data; lia.
Qed.

Lemma assign_c_str_establishes (s : const_pointer) : establishes (assign_c_str s).
Proof.
  unfold establishes_invariant, assign_c_str. apply hoare_noexcept.
  eapply hoare_bind; [apply hoare_c_string_length_at |]. intros n.
  apply (hoare_pure _ (0 <= n)); [now intros this [_ H] |]. intros Hn.
  eapply hoare_weaken; [apply (assign_establishes s n Hn) | now intros this [Hi _] | auto].
Qed.

Lemma assign_sv_establishes (sv : string_view) :
  0 <= sv_size sv -> establishes (assign_sv sv).
Proof. apply assign_establishes. Qed.

Lemma assign_sv_pos_establishes (sv : string_view) (pos count : Z) :
  0 <= count -> establishes (assign_sv_pos sv pos count).
Proof.
  intros Hcount. unfold establishes_invariant, assign_sv_pos.
  eapply hoare_bind; [apply (hoare_eval_view_substr _ sv pos count Hcount) |].
  intros sub. cbv beta.
  apply (hoare_pure _ (0 <= sv_size sub)); [now intros this [_ H] |]. intros Hsub.
  eapply hoare_pre; [apply (assign_sv_establishes sub Hsub) | now intros this [Hi _]].
Qed.

Lemma assign_fill_establishes (count ch : Z) :
  0 <= count -> establishes (assign_fill count ch).
Proof.
  intros Hc. unfold establishes_invariant, assign_fill.
  eapply hoare_bind; [apply hoare_assert |]. intros [].
  eapply hoare_bind; [apply hoare_assert |]. intros [].
  eapply hoare_bind; [apply (hoare_set_size count Hc) |]. intros [].
  eapply drop_size. apply hoare_traits_assign; lia.
Qed.

Lemma assign_range_establishes (first : const_pointer) (count : Z) :
  0 <= count -> establishes (assign_range first count).
Proof.
  intros Hc. unfold establishes_invariant, assign_range.
  eapply hoare_bind; [apply (hoare_set_size count Hc) |]. intros [].
  eapply hoare_bind; [apply hoare_gets |]. intros sz. cbv beta.
  apply (hoare_pure _ (sz = count));
    [intros this [[_ H1] H2]; congruence |]. intros ->.
  apply (drop_size _ _ count).
  eapply hoare_pre;
    [apply (hoare_traits_copy_to_data count first count); lia
    | now intros this [Hi _]].
Qed.

Lemma resize_preserves (n c : Z) : 0 <= n -> preserves (resize n c).
Proof.
  intros Hn. unfold preserves_invariant, resize.
  eapply hoare_bind; [apply hoare_gets |]. intros sz. cbv beta.
  apply (hoare_pure _ (0 <= sz <= MaxSize));
    [intros this [(_ & H & _) ->]; exact H |]. intros Hsz.
  eapply hoare_bind.
  { eapply hoare_pre;
      [apply (hoare_set_size n Hn) | intros this [Hi _]; now apply invariant_array_ok]. }
  intros []. cbv beta.
  apply (hoare_pure _ (n <= MaxSize));
    [intros this [(_ & H & _) <-]; lia |]. intros HnM.
  pose proof MaxSize_bounds.
  destruct (n >? sz) eqn:E.
  - eapply drop_size. apply hoare_traits_assign;
      rewrite ?wrap_size_t_small by lia; lia.
  - eapply drop_size. apply hoare_ret.
Qed.

Lemma append_preserves (s : list Z) (n : Z) : 0 <= n -> preserves (append s n).
Proof.
  intros Hn. unfold preserves_invariant, append.
  eapply hoare_bind; [apply hoare_gets |]. intros sz. cbv beta.
  apply (hoare_pure _ (0 <= sz <= MaxSize));
    [intros this [(_ & H & _) ->]; exact H |]. intros Hsz.
  pose proof (wrap_size_t_range (sz + n)).
  eapply hoare_bind.
  { eapply hoare_pre;
      [apply (hoare_set_size (wrap_size_t (sz + n))); lia
      | intros this [Hi _]; now apply invariant_array_ok]. }
  intros []. cbv beta. pose proof MaxSize_bounds.
  eapply drop_size. apply hoare_traits_copy; try lia.
  intros Hfit. rewrite wrap_size_t_small by lia. lia.
Qed.

Lemma append_c_str_preserves (s : list Z) : preserves (append_c_str s).
Proof.
  unfold preserves_invariant, append_c_str.
  eapply hoare_bind; [apply hoare_c_string_length |]. intros n.
  apply (hoare_pure _ (0 <= n)); [now intros this [_ H] |]. intros Hn.
  eapply hoare_weaken; [apply (append_preserves s n Hn) | now intros this [Hi _] | auto].
Qed.

Lemma append_sv_preserves (sv : list Z) : preserves (append_sv sv).
Proof. apply append_preserves. lia. Qed.

Lemma append_sv_pos_preserves (sv : list Z) (pos n : Z) :
  preserves (append_sv_pos sv pos n).
Proof.
  unfold preserves_invariant, append_sv_pos.
  eapply hoare_bind; [apply hoare_eval_substr |]. intros sub.
  apply append_sv_preserves.
Qed.

Lemma append_range_preserves (r : list Z) : preserves (append_range r).
Proof.
  unfold preserves_invariant, append_range.
  eapply hoare_bind; [apply hoare_gets |]. intros sz. cbv beta.
  apply (hoare_pure _ (0 <= sz <= MaxSize));
    [intros this [(_ & H & _) ->]; exact H |]. intros Hsz.
  pose proof (wrap_size_t_range (sz + Z.of_nat (length r))).
  eapply hoare_bind.
  { eapply hoare_pre;
      [apply (hoare_set_size (wrap_size_t (sz + Z.of_nat (length r)))); lia
      | intros this [Hi _]; now apply invariant_array_ok]. }
  intros []. cbv beta. pose proof MaxSize_bounds.
  eapply drop_size. apply hoare_traits_copy; try lia.
  intros Hfit. rewrite wrap_size_t_small by lia. lia.
Qed.

Lemma append_fill_preserves (n c : Z) : preserves (append_fill n c).
Proof.
  unfold preserves_invariant, append_fill.
  eapply hoare_bind; [apply hoare_gets |]. intros sz. cbv beta.
  eapply hoare_weaken;
    [apply (resize_preserves (wrap_size_t (sz + n)) c);
     apply wrap_size_t_range
    | now intros this [Hi _] | auto].
Qed.

Lemma operator_index_below_size (this : string_) (pos : Z) :
  size this <= MaxSize -> pos < size this ->
  operator_index pos this = Returns pos this.
Proof.
  intros HL Hpos. unfold operator_index.
  destruct checked_iterators.
  - destruct (pos <? size this) eqn:E; [reflexivity | lia].
  - destruct (pos <=? MaxSize) eqn:E; [reflexivity | lia].
Qed.

Lemma operator_index_preserves (pos : Z) :
  preserves (operator_index pos).
Proof.
  intros this Hinv. unfold operator_index. destruct checked_iterators.
  - destruct (pos <? size this); auto.
  - destruct (pos <=? MaxSize); auto.
Qed.

Lemma hoare_at (pos : Z) :
  hoare (S := string_) invariant (at_ pos)
        (fun r (this : string_) => invariant this /\ r = pos /\ pos < size this).
Proof.
  intros this Hinv. unfold at_.
  destruct (pos >=? size this) eqn:E; [exact I |].
  destruct Hinv as (Hok & HL & Hrest).
  rewrite operator_index_below_size by lia.
  split; [exact (conj Hok (conj HL Hrest)) | split; [reflexivity | lia]].
Qed.

Lemma store_at_preserves (pos c : Z) :
  0 <= pos -> preserves (r ← at_ pos; store r c).
Proof.
  intros Hpos. unfold preserves_invariant.
  eapply hoare_bind; [apply hoare_at |]. intros r this (Hinv & -> & Hlt).
  unfold store, array_set.
  change (<[Z.to_nat pos := c]> (chars_ this))
    with (list_inserts (Z.to_nat pos) [c] (chars_ this)).
  apply write_below_size; [exact Hinv | exact Hpos | simpl; lia].
Qed.

Lemma store_index_preserves (pos c : Z) :
  hoare (fun this : string_ => invariant this /\ 0 <= pos < size this)
        (r ← operator_index pos; store r c) (fun _ => invariant).
Proof.
  intros this [Hinv Hpos]. unfold mbind, method_bind.
  rewrite operator_index_below_size by (destruct Hinv as (_ & HL & _); lia).
  unfold store, array_set.
  change (<[Z.to_nat pos := c]> (chars_ this))
    with (list_inserts (Z.to_nat pos) [c] (chars_ this)).
  apply write_below_size; [exact Hinv | lia | simpl; lia].
Qed.

Lemma back_preserves : preserves back.
Proof.
  unfold preserves_invariant, back.
  eapply hoare_bind; [apply hoare_gets |]. intros sz.
  eapply hoare_weaken;
    [apply operator_index_preserves | now intros this [Hi _] | auto].
Qed.

Lemma copy_from_establishes (P : string_ -> Prop) (other : string_) :
  invariant other -> hoare P (copy_from other) (fun _ => invariant).
Proof.
  intros Hother this _. unfold copy_from.
  destruct other as [a]. exact Hother.
Qed.

Lemma swap_invariant (a b : string_) :
  invariant a -> invariant b ->
  invariant (fst (swap a b)) /\ invariant (snd (swap a b)).
Proof. destruct a, b. intros Ha Hb. split; assumption. Qed.

Lemma hoare_returns {A} (P : string_ -> Prop) (Q : A -> string_ -> Prop)
    (m : method string_ A) (this this' : string_) (a : A) :
  hoare P m Q -> P this -> m this = Returns a this' -> Q a this'.
Proof. intros Hm HP E. specialize (Hm this HP). now rewrite E in Hm. Qed.

Lemma ctor_ptr_count_establishes (s : list Z) (count : Z) :
  0 <= count -> establishes (ctor_ptr_count s count).
Proof. intros Hc. apply hoare_noexcept. now apply assign_establishes. Qed.

Lemma ctor_sv_establishes (sv : list Z) : establishes (ctor_sv sv).
Proof. apply ctor_ptr_count_establishes. lia. Qed.

Lemma ctor_c_str_establishes (s : list Z) : establishes (ctor_c_str s).
Proof.
  unfold establishes_invariant, ctor_c_str. apply hoare_noexcept.
  eapply hoare_bind; [apply hoare_c_string_length |]. intros n.
  apply (hoare_pure _ (0 <= n)); [now intros this [_ H] |]. intros Hn.
  eapply hoare_pre; [apply (ctor_ptr_count_establishes s n Hn) | now intros this [Hi _]].
Qed.

Ltac size_args H :=
  repeat (apply Forall_cons in H; destruct H as [[? ?] H]).

Lemma construct_establishes (c : constructor MaxSize) :
  Forall is_size_t (constructor_sizes c) -> constructor_sources_ok c ->
  establishes (construct c).
Proof.
  intros Hsizes Hsrc.
  destruct c; cbn [construct constructor_sizes constructor_sources_ok] in *;
    size_args Hsizes.
  - apply hoare_noexcept. apply set_size_establishes_invariant. lia.
  - now apply copy_from_establishes.
  - eapply hoare_bind; [apply hoare_eval_substr |]. intros sub. apply ctor_sv_establishes.
  - eapply hoare_bind; [apply hoare_eval_substr |]. intros sub. apply ctor_sv_establishes.
  - eapply hoare_bind; [apply hoare_eval_substr |]. intros sub. apply ctor_sv_establishes.
  - apply ctor_sv_establishes.
  - now apply ctor_ptr_count_establishes.
  - apply ctor_c_str_establishes.
  - now apply assign_fill_establishes.
  - apply assign_range_establishes. lia.
  - apply assign_establishes. lia.
Qed.

Lemma call_preserves (op : operation MaxSize) :
  Forall is_size_t (operation_sizes op) -> operation_sources_ok op ->
  preserves (call op).
Proof.
  intros Hsizes Hsrc.
  destruct op; cbn [call operation_sizes operation_sources_ok] in *;
    size_args Hsizes.
  - now apply copy_from_establishes.
  - now apply establishes_preserves, assign_sv_establishes.
  - apply establishes_preserves, hoare_noexcept, assign_c_str_establishes.
  - apply establishes_preserves, hoare_noexcept, assign_fill_establishes. lia.
  - apply establishes_preserves, assign_establishes. lia.
  - now apply establishes_preserves, set_size_establishes_invariant.
  - now apply resize_preserves.
  - now apply resize_preserves.
  - apply establishes_preserves, set_size_establishes_invariant. lia.
  - apply hoare_discard, operator_index_preserves.
  - apply hoare_discard. eapply hoare_weaken;
      [apply hoare_at | auto | now intros r this [Hi _]].
  - apply hoare_discard, operator_index_preserves.
  - apply hoare_discard, back_preserves.
  - now apply store_at_preserves.
  - apply append_sv_preserves.
  - apply append_c_str_preserves.
  - apply append_fill_preserves.
  - apply append_range_preserves.
  - apply append_preserves. apply wrap_size_t_range.
  - apply append_sv_preserves.
  - apply append_sv_pos_preserves.
  - now apply append_preserves.
  - apply append_c_str_preserves.
  - apply append_fill_preserves.
  - apply append_range_preserves.
  - apply append_range_preserves.
  - apply append_fill_preserves.
  - apply establishes_preserves, assign_establishes. apply wrap_size_t_range.
  - now apply establishes_preserves, assign_sv_establishes.
  - now apply establishes_preserves, assign_sv_pos_establishes.
  - now apply establishes_preserves, assign_establishes.
  - apply establishes_preserves, assign_c_str_establishes.
  - apply establishes_preserves, assign_establishes. lia.
  - now apply establishes_preserves, assign_fill_establishes.
  - now apply establishes_preserves, assign_range_establishes.
Qed.

(** C1.  Every constructor that returns normally yields an object that
    satisfies the three invariants of the data model
    ([0 <= size() <= MaxSize], [chars_[size()]] is the zero character,
    [chars_[MaxSize]] holds the encoding of [MaxSize - size()]); every
    public member function called on such an object, and [swap],
    leaves them in force when it returns normally, and so does a
    store through [operator[]] at a position below [size()]; the last
    cell decodes to [MaxSize - size()], and for a full string the
    terminator and the encoded size are one cell holding zero. *)
Theorem invariants_after_public_operations :
  (forall (c : constructor MaxSize) (storage this' : string_),
      array_ok storage ->
      Forall is_size_t (constructor_sizes c) -> constructor_sources_ok c ->
      construct c storage = Returns tt this' -> invariant this') /\
  (forall (op : operation MaxSize) (this this' : string_),
      invariant this ->
      Forall is_size_t (operation_sizes op) -> operation_sources_ok op ->
      call op this = Returns tt this' -> invariant this') /\
  (forall (this this' : string_) (pos c : Z),
      invariant this -> 0 <= pos < size this ->
      (r ← operator_index pos; store r c) this = Returns tt this' ->
      invariant this') /\
  (forall a b : string_,
      invariant a -> invariant b ->
      invariant (fst (swap a b)) /\ invariant (snd (swap a b))) /\
  (forall this : string_,
      invariant this ->
      0 <= size this <= MaxSize /\
      chars_ this !! Z.to_nat (size this) = Some 0 /\
      chars_ this !! Z.to_nat MaxSize
        = Some (to_CharT (to_impl_size_type (MaxSize - size this))) /\
      to_impl_size_type (back_cell this) = MaxSize - size this /\
      (size this = MaxSize ->
       chars_ this !! Z.to_nat MaxSize = Some 0 /\
       to_CharT (to_impl_size_type (MaxSize - size this)) = 0)).
Proof.
  split; [| split; [| split; [| split]]].
  - intros c storage this' Hok Hsizes Hsrc Hrun.
    exact (hoare_returns _ _ _ _ _ _
             (construct_establishes c Hsizes Hsrc) Hok Hrun).
  - intros op this this' Hinv Hsizes Hsrc Hrun.
    exact (hoare_returns _ _ _ _ _ _ (call_preserves op Hsizes Hsrc) Hinv Hrun).
  - intros this this' pos c Hinv Hpos Hrun.
    exact (hoare_returns _ _ _ _ _ _
             (store_index_preserves pos c) (conj Hinv Hpos) Hrun).
  - apply swap_invariant.
  - intros this Hinv. pose proof MaxSize_bounds as HM.
    pose proof (invariant_full this Hinv) as Hfull.
    destruct Hinv as (Hlen & Hsz & Hterm & Hback).
    assert (Henc : @encoded_size MaxSize (size this)
                   = to_CharT (to_impl_size_type (MaxSize - size this))).
    { unfold encoded_size. now rewrite wrap_size_t_small by lia. }
    rewrite <- Henc.
    split; [exact Hsz |]. split; [exact Hterm |]. split; [exact Hback |].
    split; [| exact Hfull].
    unfold back_cell, array_get.
    rewrite (list_lookup_total_correct _ _ _ Hback).
    apply decode_encoded_size. lia.
Qed.

(** *** What the calls return *)

Lemma traits_copy_returns (this : string_) (off : Z) (s : list Z) (n : Z) :
  0 <= n <= Z.of_nat (length s) -> off + n <= MaxSize + 1 ->
  traits_copy off s n this =
    Returns tt (Build_basic_inplace_string
                  (list_inserts (Z.to_nat off) (take (Z.to_nat n) s) (chars_ this))).
Proof.
  intros Hn Hfit. unfold traits_copy.
  destruct (Z.of_nat (length s) <? n) eqn:E; [lia |].
  apply write_chars_returns. rewrite length_take. lia.
Qed.

Lemma assert_passes (this : string_) (c : bool) :
  c = true -> assert_ c this = Returns tt this.
Proof. intros ->. unfold assert_. now destruct NDEBUG. Qed.

Lemma length_cells_at_insert (this : string_) (p : const_pointer) (a : list Z) :
  length a = length (chars_ this) ->
  length (cells_at p (Build_basic_inplace_string a : string_))
  = length (cells_at p this).
Proof.
  intros Ha. destruct p as [e | off]; cbn [cells_at chars_]; [reflexivity |].
  rewrite !length_drop. lia.
Qed.

(** [assign] stores the terminator and the size, then reads its source:
    the new sequence is what the pointer designates once [size(count)]
    has run. *)
Lemma assign_reads_after_set_size (this : string_) (p : const_pointer) (count : Z) :
  array_ok this -> 0 <= count <= MaxSize ->
  count <= Z.of_nat (length (cells_at p this)) -> not_in_destination p count ->
  exists mid this' : string_,
    set_size count this = Returns tt mid /\
    assign p count this = Returns tt this' /\
    invariant this' /\ size this' = count /\
    to_string this' = take (Z.to_nat count) (cells_at p mid).
Proof.
  intros Hok Hc Hs Hp.
  pose proof (set_size_establishes this count Hok Hc) as [Hinv Hsz].
  set (mid := Build_basic_inplace_string
                (array_set (array_set (chars_ this) count 0) MaxSize
                           (@encoded_size MaxSize count)) : string_) in *.
  assert (Hsrc : length (cells_at p mid) = length (cells_at p this)).
  { apply length_cells_at_insert. unfold array_set. now rewrite !length_insert. }
  set (src := cells_at p mid) in *.
  pose proof (write_below_size mid 0 (take (Z.to_nat count) src) Hinv) as Hw.
  rewrite length_take in Hw. specialize (Hw ltac:(lia) ltac:(lia)).
  cbv zeta in Hw. destruct Hw as [Hinv' Hsz'].
  exists mid. eexists.
  split; [now apply set_size_returns |].
  split; [| split; [exact Hinv' | split; [lia |]]].
  - unfold assign, noexcept, mbind, method_bind.
    rewrite assert_passes by lia.
    rewrite set_size_returns by lia. fold mid.
    assert (Hcopy : traits_copy_to_data p count mid = traits_copy 0 src count mid).
    { unfold traits_copy_to_data, src. destruct p as [a | off]; [reflexivity |].
      cbn [not_in_destination] in Hp.
      destruct (Z.of_nat off <? count) eqn:E; [lia | reflexivity]. }
    rewrite Hcopy, traits_copy_returns by lia. reflexivity.
  - unfold to_string, data. rewrite Hsz', Hsz. cbn [chars_].
    change (Z.to_nat 0) with 0%nat.
    assert (Hrun : length (take (Z.to_nat count) src) = Z.to_nat count)
      by (rewrite length_take; lia).
    rewrite <- Hrun at 1. rewrite <- (drop_0 (list_inserts _ _ _)).
    apply take_drop_list_inserts.
    destruct Hinv as (Hlen & _). unfold array_ok in Hlen. fold src. lia.
Qed.

Lemma assign_returns (this : string_) (s : list Z) (count : Z) :
  array_ok this -> 0 <= count <= MaxSize -> count <= Z.of_nat (length s) ->
  exists this' : string_,
    assign (external s) count this = Returns tt this' /\
    invariant this' /\ size this' = count /\
    to_string this' = take (Z.to_nat count) s.
Proof.
  intros Hok Hc Hs.
  destruct (assign_reads_after_set_size this (external s) count Hok Hc Hs I)
    as (mid & this' & _ & Hrun & Hinv & Hsz & Hstr).
  exists this'. auto.
Qed.

(** A source inside the object that lies beyond cell [count] and before
    the last cell is not touched by [size(count)]. *)
Lemma cells_beyond_count_intact (this : string_) (count : Z) (off : nat) :
  0 <= count < Z.of_nat off -> Z.of_nat off + count <= MaxSize ->
  take (Z.to_nat count)
       (drop off (array_set (array_set (chars_ this) count 0) MaxSize
                            (@encoded_size MaxSize count)))
  = take (Z.to_nat count) (drop off (chars_ this)).
Proof.
  intros Hc Hfit. apply take_ext_lookup. intros i Hi.
  rewrite !lookup_drop. unfold array_set.
  rewrite list_lookup_insert_ne by lia. now rewrite list_lookup_insert_ne by lia.
Qed.

Lemma assign_internal_returns (this : string_) (count : Z) (off : nat) :
  array_ok this -> 0 <= count < Z.of_nat off -> Z.of_nat off + count <= MaxSize ->
  exists this' : string_,
    assign (internal off) count this = Returns tt this' /\
    invariant this' /\ size this' = count /\
    to_string this' = take (Z.to_nat count) (drop off (chars_ this)).
Proof.
  intros Hok Hc Hfit.
  destruct (assign_reads_after_set_size this (internal off) count Hok)
    as (mid & this' & Hmid & Hrun & Hinv & Hsz & Hstr);
    [lia | | cbn [not_in_destination]; lia |].
  { cbn [cells_at]. rewrite length_drop. unfold array_ok in Hok. lia. }
  exists this'. split; [exact Hrun |]. split; [exact Hinv |]. split; [exact Hsz |].
  rewrite set_size_returns in Hmid by lia. injection Hmid as <-.
  rewrite Hstr. cbn [cells_at chars_]. now apply cells_beyond_count_intact.
Qed.

Lemma append_returns (this : string_) (s : list Z) (n : Z) :
  invariant this -> 0 <= n <= Z.of_nat (length s) -> size this + n <= MaxSize ->
  exists this' : string_,
    append s n this = Returns tt this' /\
    invariant this' /\ size this' = size this + n /\
    take (Z.to_nat (size this)) (chars_ this')
      = take (Z.to_nat (size this)) (chars_ this) /\
    take (Z.to_nat n) (drop (Z.to_nat (size this)) (chars_ this'))
      = take (Z.to_nat n) s.
Proof.
  intros Hthis Hn Hfit. pose proof MaxSize_bounds as HM.
  pose proof Hthis as (Hok & HL & _).
  set (L := size this) in *.
  pose proof (set_size_establishes this (L + n) Hok ltac:(lia)) as [Hinv Hsz].
  set (mid := Build_basic_inplace_string
                (array_set (array_set (chars_ this) (L + n) 0) MaxSize
                           (@encoded_size MaxSize (L + n))) : string_) in *.
  pose proof (write_below_size mid L (take (Z.to_nat n) s) Hinv) as Hw.
  rewrite length_take in Hw. specialize (Hw ltac:(lia) ltac:(lia)).
  cbv zeta in Hw. destruct Hw as [Hinv' Hsz'].
  assert (Hrun : length (take (Z.to_nat n) s) = Z.to_nat n)
    by (rewrite length_take; lia).
  eexists. split; [| split; [exact Hinv' | split; [lia | split]]].
  - unfold append, gets, mbind, method_bind. fold L.
    rewrite wrap_size_t_small by lia.
    rewrite set_size_returns by lia. fold mid.
    rewrite traits_copy_returns by lia. reflexivity.
  - cbn [chars_]. rewrite take_list_inserts_below by lia.
    unfold mid, array_set. cbn [chars_].
    rewrite !take_insert_ge by lia. reflexivity.
  - cbn [chars_]. rewrite <- Hrun at 1.
    apply take_drop_list_inserts.
    destruct Hinv as (Hlen & _). unfold array_ok in Hlen. lia.
Qed.

(** C9.  The default constructor, run on any storage, returns an
    object with [size() == 0] and [empty()]; its first cell is the
    zero character, so that [c_str()] is a null-terminated sequence of
    length zero. *)
Theorem default_constructed_is_empty (storage : string_) :
  array_ok storage ->
  exists this : string_,
    ctor_default storage = Returns tt this /\
    size this = 0 /\ empty this = true /\
    chars_ this !! 0%nat = Some 0 /\
    traits_length (c_str this) = Some 0 /\
    to_string this = [].
Proof.
  intros Hok. pose proof MaxSize_bounds as HM.
  pose proof (set_size_establishes storage 0 Hok ltac:(lia)) as [Hinv Hsz].
  eexists. split.
  { unfold ctor_default, clear, noexcept.
    rewrite set_size_returns by lia. reflexivity. }
  destruct Hinv as (_ & _ & Hterm & _). rewrite Hsz in Hterm.
  change (Z.to_nat 0) with 0%nat in Hterm.
  split; [exact Hsz |]. split; [unfold empty; now rewrite Hsz |].
  split; [exact Hterm |]. split.
  - unfold c_str, data.
    destruct (chars_ _) as [| c l]; [discriminate |].
    injection Hterm as ->. reflexivity.
  - unfold to_string. rewrite Hsz. reflexivity.
Qed.

(** C2.  [resize(n, c)] and [resize(n)] with [n > MaxSize] throw
    [std::length_error], and the object at the throw is the object
    before the call: no cell has been written. *)
Theorem resize_beyond_capacity_throws (this : string_) (n c : Z) :
  n > MaxSize ->
  resize n c this = Throws length_error this /\
  resize1 n this = Throws length_error this.
Proof.
  intros Hn.
  assert (H : resize n c this = Throws length_error this /\
              resize n 0 this = Throws length_error this).
  { unfold resize, gets, mbind, method_bind.
    rewrite set_size_throws by exact Hn. split; reflexivity. }
  exact H.
Qed.

(** C4, as the code has it.  [assign] stores the terminator and the
    size before it copies its source.  For a sequence [s] of at most
    [MaxSize] characters held outside the object, [assign] of [s]
    (through a pointer and a count, a view, an initializer list, or a
    null-terminated array when [s] holds no zero character) followed by
    [to_string] gives back [s]; so it does for [s] held in the object's
    own array at an offset beyond [|s|] and ending before the last
    cell, the cells that [size(|s|)] leaves alone. *)
Theorem assign_to_string_round_trip (this : string_) (s rest : list Z) :
  array_ok this -> Z.of_nat (length s) <= MaxSize ->
  (exists this' : string_,
      assign (external (s ++ rest)) (Z.of_nat (length s)) this = Returns tt this' /\
      to_string this' = s) /\
  (exists this' : string_,
      assign_sv {| sv_data := external s; sv_size := Z.of_nat (length s) |} this
      = Returns tt this' /\
      to_string this' = s) /\
  (exists this' : string_,
      assign_ilist s this = Returns tt this' /\ to_string this' = s) /\
  (Forall (fun c => c <> 0) s ->
   exists this' : string_,
      assign_c_str (external (s ++ 0 :: rest)) this = Returns tt this' /\
      to_string this' = s) /\
  (forall off : nat,
      Z.of_nat (length s) < Z.of_nat off ->
      Z.of_nat off + Z.of_nat (length s) <= MaxSize ->
      take (length s) (drop off (chars_ this)) = s ->
      exists this' : string_,
        assign (internal off) (Z.of_nat (length s)) this = Returns tt this' /\
        to_string this' = s).
Proof.
  intros Hok Hlen.
  assert (Hgen : forall tail : list Z,
             exists this' : string_,
               assign (external (s ++ tail)) (Z.of_nat (length s)) this
               = Returns tt this' /\
               to_string this' = s).
  { intros tail.
    destruct (assign_returns this (s ++ tail) (Z.of_nat (length s)) Hok)
      as (this' & Hrun & _ & _ & Hstr); [lia | rewrite length_app; lia |].
    exists this'. split; [exact Hrun |].
    rewrite Hstr, Nat2Z.id. apply take_app_length. }
  split; [apply Hgen |].
  assert (Hnil : exists this' : string_,
             assign (external s) (Z.of_nat (length s)) this = Returns tt this' /\
             to_string this' = s).
  { specialize (Hgen []). now rewrite app_nil_r in Hgen. }
  split; [exact Hnil |]. split; [exact Hnil |]. split.
  - intros Hnonzero. pose proof (traits_length_app s rest Hnonzero) as Hstrlen.
    destruct (Hgen (0 :: rest)) as (this' & Hrun & Hstr).
    exists this'. split; [| exact Hstr].
    unfold assign_c_str, c_string_length_at, noexcept at 1, mbind, method_bind.
    cbn [cells_at]. rewrite Hstrlen. now rewrite Hrun.
  - intros off Hoff Hfit Hsrc.
    destruct (assign_internal_returns this (Z.of_nat (length s)) off Hok)
      as (this' & Hrun & _ & _ & Hstr); [lia | lia |].
    exists this'. split; [exact Hrun |]. now rewrite Hstr, Nat2Z.id.
Qed.


(** C7.  [at(pos)] throws [std::out_of_range] exactly when
    [pos >= size()]; otherwise it returns the reference to cell [pos],
    a cell of the array.  So [at(size())] throws, [at(size() - 1)] on
    a non-empty object returns, and a call that throws leaves the
    object as it was. *)
Theorem at_checks_position (this : string_) (pos : Z) :
  invariant this -> is_size_t pos ->
  (at_ pos this = Throws out_of_range this <-> pos >= size this) /\
  (pos < size this ->
   at_ pos this = Returns pos this /\
   chars_ this !! Z.to_nat pos = Some (load pos this)) /\
  at_ (size this) this = Throws out_of_range this /\
  (size this <> 0 ->
   at_ (wrap_size_t (size this - 1)) this = Returns (size this - 1) this) /\
  (forall e this', at_ pos this = Throws e this' -> e = out_of_range /\ this' = this).
Proof.
  intros (Hok & HL & _) [Hpos _]. pose proof MaxSize_bounds as HM.
  assert (Hin : forall p, p < size this -> at_ p this = Returns p this).
  { intros p Hp. unfold at_.
    destruct (p >=? size this) eqn:E; [lia |].
    apply operator_index_below_size; lia. }
  assert (Hout : forall p, p >= size this -> at_ p this = Throws out_of_range this).
  { intros p Hp. unfold at_.
    destruct (p >=? size this) eqn:E; [reflexivity | lia]. }
  split; [| split; [| split; [| split]]].
  - split; [| apply Hout].
    intros Hthrow. destruct (Z_lt_ge_dec pos (size this)) as [Hlt | Hge]; [| exact Hge].
    rewrite (Hin pos Hlt) in Hthrow. discriminate.
  - intros Hlt. split; [now apply Hin |].
    unfold load, array_get. apply list_lookup_lookup_total_lt.
    unfold array_ok in Hok. lia.
  - apply Hout. lia.
  - intros Hne. rewrite wrap_size_t_small by lia. apply Hin. lia.
  - intros e this' Hthrow.
    destruct (Z_lt_ge_dec pos (size this)) as [Hlt | Hge].
    + rewrite (Hin pos Hlt) in Hthrow. discriminate.
    + rewrite (Hout pos Hge) in Hthrow. now injection Hthrow as <- <-.
Qed.

Lemma substr_throws (sv : list Z) (pos n : Z) :
  pos > Z.of_nat (length sv) -> substr sv pos n = inl out_of_range.
Proof.
  intros Hpos. unfold substr.
  destruct (pos >? Z.of_nat (length sv)) eqn:E; [reflexivity | lia].
Qed.

Lemma substr_returns (sv : list Z) (pos n : Z) :
  0 <= pos <= Z.of_nat (length sv) -> Z.of_nat (length sv) <= SIZE_MAX ->
  substr sv pos n
  = inr (take (Z.to_nat (Z.min n (Z.of_nat (length sv) - pos)))
              (drop (Z.to_nat pos) sv)).
Proof.
  intros Hpos Hsv. unfold substr.
  destruct (pos >? Z.of_nat (length sv)) eqn:E; [lia |].
  now rewrite wrap_size_t_small by lia.
Qed.

Lemma ctor_ptr_count_returns (storage : string_) (s : list Z) (count : Z) :
  array_ok storage -> 0 <= count <= MaxSize -> count <= Z.of_nat (length s) ->
  exists this : string_,
    ctor_ptr_count s count storage = Returns tt this /\
    invariant this /\ size this = count /\
    to_string this = take (Z.to_nat count) s.
Proof.
  intros Hok Hc Hs.
  destruct (assign_returns storage s count Hok Hc Hs) as (this & Hrun & Hrest).
  exists this. split; [| exact Hrest].
  unfold ctor_ptr_count, noexcept at 1. now rewrite Hrun.
Qed.

Lemma ctor_sv_pos_n_throws (storage : string_) (sv : list Z) (pos n : Z) :
  pos > Z.of_nat (length sv) ->
  ctor_sv_pos_n sv pos n storage = Throws out_of_range storage.
Proof.
  intros Hpos. unfold ctor_sv_pos_n, mbind, method_bind.
  now rewrite substr_throws by exact Hpos.
Qed.

Lemma ctor_sv_pos_n_returns (storage : string_) (sv : list Z) (pos n : Z) :
  array_ok storage -> Z.of_nat (length sv) <= SIZE_MAX ->
  0 <= pos <= Z.of_nat (length sv) -> 0 <= n ->
  Z.min n (Z.of_nat (length sv) - pos) <= MaxSize ->
  exists this : string_,
    ctor_sv_pos_n sv pos n storage = Returns tt this /\
    to_string this
    = take (Z.to_nat (Z.min n (Z.of_nat (length sv) - pos))) (drop (Z.to_nat pos) sv) /\
    size this = Z.min n (Z.of_nat (length sv) - pos) /\
    invariant this.
Proof.
  intros Hok Hsv Hpos Hn Hfit.
  set (sub := take (Z.to_nat (Z.min n (Z.of_nat (length sv) - pos)))
                   (drop (Z.to_nat pos) sv)).
  assert (Hsub : Z.of_nat (length sub) = Z.min n (Z.of_nat (length sv) - pos)).
  { unfold sub. rewrite length_take, length_drop. lia. }
  destruct (ctor_ptr_count_returns storage sub (Z.of_nat (length sub)) Hok)
    as (this & Hrun & Hinv & Hsz & Hstr); [lia | lia |].
  exists this. split; [| split; [| split; [lia | exact Hinv]]].
  - unfold ctor_sv_pos_n, mbind, method_bind.
    rewrite substr_returns by lia. fold sub. cbn [eval_substr].
    unfold mret, method_ret, ctor_sv. exact Hrun.
  - rewrite Hstr, Nat2Z.id. apply take_ge. lia.
Qed.

(** C8, as the code has it.  The constructors that take a source, an
    offset and a count go through [std::basic_string_view::substr]:
    an offset greater than the length of the source throws
    [std::out_of_range] and no object is made; an offset up to the
    length gives the characters from the offset on, their number
    clamped to what the source has left (none when the offset is the
    length), provided they fit [MaxSize]. *)
Theorem substring_constructor (storage : string_) (sv : list Z) (pos n : Z) :
  array_ok storage -> Z.of_nat (length sv) <= SIZE_MAX ->
  is_size_t pos -> is_size_t n ->
  (pos > Z.of_nat (length sv) ->
   ctor_sv_pos_n sv pos n storage = Throws out_of_range storage) /\
  (pos <= Z.of_nat (length sv) ->
   Z.min n (Z.of_nat (length sv) - pos) <= MaxSize ->
   exists this : string_,
     ctor_sv_pos_n sv pos n storage = Returns tt this /\
     size this = Z.min n (Z.of_nat (length sv) - pos) /\
     to_string this
     = take (Z.to_nat (Z.min n (Z.of_nat (length sv) - pos)))
            (drop (Z.to_nat pos) sv) /\
     (pos = Z.of_nat (length sv) -> to_string this = [])) /\
  (forall (Other : Z) (str : basic_inplace_string Other),
      ctor_str_pos_n str pos n storage
      = ctor_sv_pos_n (operator_string_view str) pos n storage /\
      ctor_str_pos str pos storage
      = ctor_sv_pos_n (operator_string_view str) pos npos storage).
Proof.
  intros Hok Hsv [Hpos _] [Hn _].
  split; [apply ctor_sv_pos_n_throws |]. split.
  - intros Hle Hfit.
    destruct (ctor_sv_pos_n_returns storage sv pos n Hok Hsv) as
      (this & Hrun & Hstr & Hsz & _); [lia | lia | lia |].
    exists this. split; [exact Hrun |]. split; [exact Hsz |].
    split; [exact Hstr |].
    intros ->. rewrite Hstr. rewrite drop_ge by lia. apply take_nil.
  - intros Other str. split; reflexivity.
Qed.

Lemma append_throws (this : string_) (s : list Z) (n : Z) :
  size this + n > MaxSize -> size this + n <= SIZE_MAX ->
  append s n this = Throws length_error this.
Proof.
  intros Hover Hwrap. pose proof (size_range this).
  pose proof MaxSize_bounds.
  unfold append, gets, mbind, method_bind.
  rewrite wrap_size_t_small by lia.
  now rewrite set_size_throws by lia.
Qed.

Lemma assign_over_capacity (this : string_) (s : const_pointer) (count : Z) :
  count > MaxSize ->
  assign s count this = if NDEBUG then Terminated else AssertionFailed.
Proof.
  intros Hover. unfold assign, noexcept, mbind, method_bind, assert_.
  destruct NDEBUG.
  - now rewrite set_size_throws by exact Hover.
  - destruct (count <=? MaxSize) eqn:E; [lia | reflexivity].
Qed.

(** C3, as the code has it.  [assign(s, count)] and the constructor
    from a pointer and a count, called with [count > MaxSize], report
    no exception to the caller: with assertions enabled the [assert]
    fails, with [NDEBUG] the length check of [size(size_type)] throws
    inside the [noexcept] function, the object at the throw being the
    object before the call (no cell has been written), and
    [std::terminate] ends the program; the behaviour is defined in
    both builds.  [append(s, n)] is not of this kind: when
    [size() + n] exceeds [MaxSize] (the sum being a value of
    [size_type]) it throws [std::length_error] to the caller, the
    object unchanged. *)
Theorem over_capacity_assign_aborts
  (this : string_) (p : const_pointer) (s : list Z) (count : Z) :
  count > MaxSize ->
  assign p count this = (if NDEBUG then Terminated else AssertionFailed) /\
  ctor_ptr_count s count this = (if NDEBUG then Terminated else AssertionFailed) /\
  (forall e this', assign p count this <> Throws e this') /\
  assign p count this <> Undefined /\
  (assert_ (count <=? MaxSize);; set_size count;; traits_copy_to_data p count) this
  = (if NDEBUG then Throws length_error this else AssertionFailed) /\
  (forall n, size this + n > MaxSize -> size this + n <= SIZE_MAX ->
             append s n this = Throws length_error this).
Proof.
  intros Hover. pose proof (assign_over_capacity this p count Hover) as Hassign.
  split; [exact Hassign |]. split; [| split; [| split; [| split]]].
  - unfold ctor_ptr_count, noexcept at 1.
    rewrite (assign_over_capacity this (external s) count Hover).
    now destruct NDEBUG.
  - intros e this'. rewrite Hassign. now destruct NDEBUG.
  - rewrite Hassign. now destruct NDEBUG.
  - unfold mbind, method_bind, assert_. destruct NDEBUG.
    + now rewrite set_size_throws by exact Hover.
    + destruct (count <=? MaxSize) eqn:E; [lia | reflexivity].
  - intros n. apply append_throws.
Qed.

(** C10, as the code has it.  [append(s, n)] and [push_back(c)] whose
    resulting length exceeds [MaxSize] (the sum being a value of
    [size_type]) throw [std::length_error], whatever the build mode,
    before any character is copied: the object at the throw is the
    object before the call. *)
Theorem append_beyond_capacity_throws (this : string_) (s : list Z) (n c : Z) :
  (size this + n > MaxSize -> size this + n <= SIZE_MAX ->
   append s n this = Throws length_error this) /\
  (size this + 1 > MaxSize -> size this <= MaxSize ->
   push_back c this = Throws length_error this).
Proof.
  split; [apply append_throws |].
  intros Hover Hle. pose proof (size_range this). pose proof MaxSize_bounds.
  unfold push_back, append_fill, resize, gets, mbind, method_bind.
  rewrite wrap_size_t_small by lia.
  now rewrite set_size_throws by lia.
Qed.

(** *** The relational operators *)

Lemma std_equal_spec (r1 r2 : list Z) : std_equal r1 r2 = true <-> r1 = r2.
Proof.
  revert r2. induction r1 as [| x r1 IH]; intros [| y r2]; simpl;
    try (split; [discriminate | discriminate]); [tauto |].
  rewrite andb_true_iff, IH, Z.eqb_eq. split.
  - now intros [-> ->].
  - intros [= -> ->]. auto.
Qed.

Lemma std_lexicographical_compare_spec (r1 r2 : list Z) :
  std_lexicographical_compare r1 r2 = true <-> lexicographically_less r1 r2.
Proof.
  split.
  - revert r2. induction r1 as [| x r1 IH]; intros [| y r2]; simpl;
      try discriminate.
    + intros _. apply less_proper_prefix.
    + destruct (x <? y) eqn:Exy; [intros _; apply less_first_difference; lia |].
      destruct (y <? x) eqn:Eyx; [discriminate |].
      intros H. assert (x = y) as -> by lia. apply less_after_equal. now apply IH.
  - induction 1 as [y r2 | x y r1 r2 Hlt | x r1 r2 Hless IH]; simpl.
    + reflexivity.
    + destruct (x <? y) eqn:Exy; [reflexivity | lia].
    + now rewrite Z.ltb_irrefl.
Qed.

Lemma std_lexicographical_compare_total (r1 r2 : list Z) :
  std_lexicographical_compare r2 r1 = false <->
  std_lexicographical_compare r1 r2 = true \/ r1 = r2.
Proof.
  revert r2. induction r1 as [| x r1 IH]; intros [| y r2]; simpl.
  - split; auto.
  - split; auto.
  - split; [discriminate | intros [H | H]; discriminate].
  - destruct (Z.lt_trichotomy x y) as [Hlt | [-> | Hgt]].
    + rewrite (proj2 (Z.ltb_lt x y) Hlt), (proj2 (Z.ltb_ge y x)) by lia.
      split; auto.
    + rewrite Z.ltb_irrefl, IH.
      split; (intros [H | H]; [now left | right; congruence]).
    + rewrite (proj2 (Z.ltb_lt y x) Hgt), (proj2 (Z.ltb_ge x y)) by lia.
      split; [discriminate | intros [H | [= Hx _]]; [discriminate | lia]].
Qed.

Lemma ctor_c_str_returns (storage : string_) (s : list Z) (n : Z) :
  array_ok storage -> traits_length s = Some n -> n <= MaxSize ->
  exists this : string_,
    ctor_c_str s storage = Returns tt this /\
    to_string this = take (Z.to_nat n) s /\ size this = n /\ invariant this.
Proof.
  intros Hok Hlen Hfit. pose proof (traits_length_bounds s n Hlen) as Hn.
  destruct (ctor_ptr_count_returns storage s n Hok) as
    (this & Hrun & Hinv & Hsz & Hstr); [lia | lia |].
  exists this. split; [| auto].
  unfold ctor_c_str, c_string_length, noexcept at 1, mbind, method_bind.
  rewrite Hlen. unfold mret, method_ret. now rewrite Hrun.
Qed.

(** C6.  The relational operators of two strings of one [MaxSize] are
    the comparisons of their character sequences, the cells
    [0 .. size() - 1]: [==] is equality of the sequences, [<] the
    lexicographic order, and the other four follow.  Two objects of
    equal size whose cells below the size agree are equal, and no
    operator changes its result when cells at or above the sizes are
    overwritten with the sizes kept (the terminator and the vacated
    cells are never compared); ["foo" < "foobar"] for every
    [MaxSize >= 6]. *)
Theorem relational_operators_compare_sequences (lhs rhs : string_) :
  (operator_eq lhs rhs = true <-> to_sv lhs = to_sv rhs) /\
  (operator_ne lhs rhs = true <-> to_sv lhs <> to_sv rhs) /\
  (operator_lt lhs rhs = true <-> lexicographically_less (to_sv lhs) (to_sv rhs)) /\
  (operator_le lhs rhs = true <->
   lexicographically_less (to_sv lhs) (to_sv rhs) \/ to_sv lhs = to_sv rhs) /\
  (operator_gt lhs rhs = true <-> lexicographically_less (to_sv rhs) (to_sv lhs)) /\
  (operator_ge lhs rhs = true <->
   lexicographically_less (to_sv rhs) (to_sv lhs) \/ to_sv lhs = to_sv rhs) /\
  (size lhs = size rhs ->
   (forall i, (i < Z.to_nat (size lhs))%nat -> chars_ lhs !! i = chars_ rhs !! i) ->
   operator_eq lhs rhs = true) /\
  (forall lhs' rhs' : string_,
      size lhs' = size lhs -> size rhs' = size rhs ->
      (forall i, (i < Z.to_nat (size lhs))%nat -> chars_ lhs' !! i = chars_ lhs !! i) ->
      (forall i, (i < Z.to_nat (size rhs))%nat -> chars_ rhs' !! i = chars_ rhs !! i) ->
      operator_eq lhs' rhs' = operator_eq lhs rhs /\
      operator_ne lhs' rhs' = operator_ne lhs rhs /\
      operator_lt lhs' rhs' = operator_lt lhs rhs /\
      operator_le lhs' rhs' = operator_le lhs rhs /\
      operator_gt lhs' rhs' = operator_gt lhs rhs /\
      operator_ge lhs' rhs' = operator_ge lhs rhs) /\
  (6 <= MaxSize ->
   forall sa sb : string_, array_ok sa -> array_ok sb ->
   exists a b : string_,
     ctor_c_str (literal "foo") sa = Returns tt a /\
     ctor_c_str (literal "foobar") sb = Returns tt b /\
     operator_lt a b = true /\ operator_eq a b = false).
Proof.
  unfold operator_ne, operator_le, operator_gt, operator_ge,
    operator_lt, operator_eq, begin_end, to_sv.
  set (l := take (Z.to_nat (size lhs)) (data lhs)).
  set (r := take (Z.to_nat (size rhs)) (data rhs)).
  split; [apply std_equal_spec |].
  split.
  { rewrite negb_true_iff, <- not_true_iff_false. now rewrite std_equal_spec. }
  split; [apply std_lexicographical_compare_spec |].
  split.
  { rewrite negb_true_iff, std_lexicographical_compare_total.
    now rewrite std_lexicographical_compare_spec. }
  split; [apply std_lexicographical_compare_spec |].
  split.
  { rewrite negb_true_iff, std_lexicographical_compare_total.
    rewrite std_lexicographical_compare_spec.
    split; (intros [H | H]; [now left | right; congruence]). }
  split.
  { intros Hsz Hcells. apply std_equal_spec. subst l r.
    rewrite <- Hsz. now apply take_ext_lookup. }
  split.
  { intros lhs' rhs' Hl Hr Hlcells Hrcells.
    assert (El : take (Z.to_nat (size lhs')) (data lhs') = l)
      by (subst l; rewrite Hl; now apply take_ext_lookup).
    assert (Er : take (Z.to_nat (size rhs')) (data rhs') = r)
      by (subst r; rewrite Hr; now apply take_ext_lookup).
    rewrite El, Er. repeat split; reflexivity. }
  intros HM sa sb Hsa Hsb.
  destruct (ctor_c_str_returns sa (literal "foo") 3 Hsa eq_refl ltac:(lia))
    as (a & Ha & Hstra & _).
  destruct (ctor_c_str_returns sb (literal "foobar") 6 Hsb eq_refl ltac:(lia))
    as (b & Hb & Hstrb & _).
  exists a, b. split; [exact Ha |]. split; [exact Hb |].
  unfold to_string in Hstra, Hstrb. rewrite Hstra, Hstrb.
  split; reflexivity.
Qed.

(** ** Further members *)

Lemma length_to_string (this : string_) :
  invariant this -> length (to_string this) = Z.to_nat (size this).
Proof.
  intros (Hok & HL & _). unfold to_string, data, array_ok in *.
  rewrite length_take. lia.
Qed.

Lemma set_size_cells (this : string_) (s : Z) (i : nat) :
  i <> Z.to_nat s -> i <> Z.to_nat MaxSize ->
  array_set (array_set (chars_ this) s 0) MaxSize (@encoded_size MaxSize s) !! i
  = chars_ this !! i.
Proof.
  intros Hs HM. unfold array_set.
  rewrite list_lookup_insert_ne by lia. now rewrite list_lookup_insert_ne by lia.
Qed.

(** X1.  The length setter [size(s)] works on any content of the array:
    for [s <= MaxSize] it returns, [size()] then reads [s] back, the cell
    [s] holds zero, and no cell other than [s] and the last one has
    changed; for [s > MaxSize] it throws [std::length_error] and has
    written nothing. *)
Theorem set_size_round_trip (this : string_) (s : Z) :
  array_ok this -> 0 <= s ->
  (s <= MaxSize ->
   exists this' : string_,
     set_size s this = Returns tt this' /\
     size this' = s /\
     chars_ this' !! Z.to_nat s = Some 0 /\
     (forall i : nat, i <> Z.to_nat s -> i <> Z.to_nat MaxSize ->
                      chars_ this' !! i = chars_ this !! i)) /\
  (s > MaxSize -> set_size s this = Throws length_error this).
Proof.
  intros Hok Hs. split; [| apply set_size_throws].
  intros Hle.
  destruct (set_size_establishes this s Hok ltac:(lia)) as [Hinv Hsz].
  eexists. split; [now apply set_size_returns |].
  split; [exact Hsz |]. split.
  - destruct Hinv as (_ & _ & Hterm & _). now rewrite Hsz in Hterm.
  - intros i Hi HM. cbn [chars_]. now apply set_size_cells.
Qed.

Lemma traits_assign_returns (this : string_) (off n c : Z) :
  off + Z.of_nat (Z.to_nat n) <= MaxSize + 1 ->
  traits_assign off n c this =
    Returns tt (Build_basic_inplace_string
                  (list_inserts (Z.to_nat off) (replicate (Z.to_nat n) c) (chars_ this))).
Proof.
  intros Hfit. unfold traits_assign. apply write_chars_returns.
  now rewrite length_replicate.
Qed.

Lemma resize_returns (this : string_) (n c : Z) :
  invariant this -> 0 <= n <= MaxSize ->
  exists this' : string_,
    resize n c this = Returns tt this' /\
    invariant this' /\ size this' = n /\
    to_string this'
    = take (Z.to_nat n) (to_string this) ++ replicate (Z.to_nat (n - size this)) c.
Proof.
  intros Hthis Hn. pose proof MaxSize_bounds as HM.
  pose proof Hthis as (Hok & HL & _).
  set (L := size this) in *.
  pose proof (set_size_establishes this n Hok Hn) as [Hinv Hsz].
  set (mid := Build_basic_inplace_string
                (array_set (array_set (chars_ this) n 0) MaxSize
                           (@encoded_size MaxSize n)) : string_) in *.
  assert (Hmid : forall k : nat, (k <= Z.to_nat n)%nat ->
                   take k (chars_ mid) = take k (chars_ this)).
  { intros k Hk. unfold mid, array_set. cbn [chars_].
    now rewrite !take_insert_ge by lia. }
  destruct (Z_gt_le_dec n L) as [Hgrow | Hshrink].
  - pose proof (write_below_size mid L (replicate (Z.to_nat (n - L)) c) Hinv) as Hw.
    rewrite length_replicate in Hw. specialize (Hw ltac:(lia) ltac:(lia)).
    cbv zeta in Hw. destruct Hw as [Hinv' Hsz'].
    eexists. split; [| split; [exact Hinv' | split; [lia |]]].
    + unfold resize, gets, mbind, method_bind. fold L.
      rewrite set_size_returns by lia. fold mid.
      destruct (n >? L) eqn:E; [| lia].
      rewrite wrap_size_t_small by lia.
      rewrite traits_assign_returns by lia. reflexivity.
    + unfold to_string, data. rewrite Hsz', Hsz. cbn [chars_]. fold L.
      rewrite take_take, Nat.min_r by lia.
      replace (Z.to_nat n) with (Z.to_nat L + Z.to_nat (n - L))%nat at 1 by lia.
      rewrite <- take_take_drop. f_equal.
      * rewrite take_list_inserts_below by lia. apply Hmid. lia.
      * rewrite <- (length_replicate (Z.to_nat (n - L)) c) at 1.
        apply take_drop_list_inserts.
        rewrite length_replicate. destruct Hinv as (Hlen & _).
        unfold array_ok in Hlen. lia.
  - exists mid. split; [| split; [exact Hinv | split; [exact Hsz |]]].
    + unfold resize, gets, mbind, method_bind. fold L.
      rewrite set_size_returns by lia. fold mid.
      destruct (n >? L) eqn:E; [lia | reflexivity].
    + unfold to_string, data. rewrite Hsz. fold L.
      replace (Z.to_nat (n - L)) with 0%nat by lia. cbn [replicate].
      rewrite app_nil_r, take_take, Nat.min_l by lia.
      apply Hmid. lia.
Qed.

(** X2.  [resize(n, c)] with [n <= MaxSize] returns with [size() == n]:
    the first [min(n, size())] characters are kept and, when the string
    grows, the new positions hold [c]; [resize(n)] fills with the zero
    character. *)
Theorem resize_result (this : string_) (n c : Z) :
  invariant this -> 0 <= n <= MaxSize ->
  (exists this' : string_,
      resize n c this = Returns tt this' /\
      size this' = n /\
      to_string this'
      = take (Z.to_nat n) (to_string this) ++ replicate (Z.to_nat (n - size this)) c) /\
  (exists this' : string_,
      resize1 n this = Returns tt this' /\
      size this' = n /\
      to_string this'
      = take (Z.to_nat n) (to_string this) ++ replicate (Z.to_nat (n - size this)) 0).
Proof.
  intros Hinv Hn. split.
  - destruct (resize_returns this n c Hinv Hn) as (this' & Hrun & _ & Hsz & Hstr).
    exists this'. auto.
  - destruct (resize_returns this n 0 Hinv Hn) as (this' & Hrun & _ & Hsz & Hstr).
    exists this'. auto.
Qed.

Lemma append_fill_returns (this : string_) (n c : Z) :
  invariant this -> 0 <= n -> size this + n <= MaxSize ->
  exists this' : string_,
    append_fill n c this = Returns tt this' /\
    invariant this' /\ size this' = size this + n /\
    to_string this' = to_string this ++ replicate (Z.to_nat n) c.
Proof.
  intros Hinv Hn Hfit. pose proof MaxSize_bounds as HM.
  pose proof Hinv as (_ & HL & _).
  destruct (resize_returns this (size this + n) c Hinv ltac:(lia))
    as (this' & Hrun & Hinv' & Hsz & Hstr).
  exists this'. split; [| split; [exact Hinv' | split; [exact Hsz |]]].
  - unfold append_fill, gets, mbind, method_bind.
    rewrite wrap_size_t_small by lia. exact Hrun.
  - rewrite Hstr. rewrite take_ge by (rewrite length_to_string by exact Hinv; lia).
    do 2 f_equal. lia.
Qed.

Lemma append_fill_throws (this : string_) (n c : Z) :
  size this + n > MaxSize -> size this + n <= SIZE_MAX ->
  append_fill n c this = Throws length_error this.
Proof.
  intros Hover Hwrap. pose proof (size_range this). pose proof MaxSize_bounds.
  unfold append_fill, resize, gets, mbind, method_bind.
  rewrite wrap_size_t_small by lia.
  now rewrite set_size_throws by lia.
Qed.

(** X3.  [append(n, c)] on a string of size [L] with [L + n <= MaxSize]
    adds [n] copies of [c] at the end; [push_back(c)] and
    [operator+=(c)] add the one character when [L < MaxSize]. *)
Theorem append_fill_result (this : string_) (n c : Z) :
  invariant this -> 0 <= n ->
  (size this + n <= MaxSize ->
   exists this' : string_,
     append_fill n c this = Returns tt this' /\
     size this' = size this + n /\
     to_string this' = to_string this ++ replicate (Z.to_nat n) c) /\
  (size this < MaxSize ->
   exists this' : string_,
     push_back c this = Returns tt this' /\
     operator_plus_assign_char c this = Returns tt this' /\
     size this' = size this + 1 /\
     to_string this' = to_string this ++ [c]).
Proof.
  intros Hinv Hn. split.
  - intros Hfit.
    destruct (append_fill_returns this n c Hinv Hn Hfit) as (this' & Hrun & _ & Hsz & Hstr).
    exists this'. auto.
  - intros Hfit.
    destruct (append_fill_returns this 1 c Hinv ltac:(lia) ltac:(lia))
      as (this' & Hrun & _ & Hsz & Hstr).
    exists this'. auto.
Qed.

Lemma append_to_string (this : string_) (s : list Z) (n : Z) :
  invariant this -> 0 <= n <= Z.of_nat (length s) -> size this + n <= MaxSize ->
  exists this' : string_,
    append s n this = Returns tt this' /\
    invariant this' /\ size this' = size this + n /\
    to_string this' = to_string this ++ take (Z.to_nat n) s.
Proof.
  intros Hinv Hn Hfit.
  destruct (append_returns this s n Hinv Hn Hfit)
    as (this' & Hrun & Hinv' & Hsz & Hfront & Hnew).
  exists this'. split; [exact Hrun |]. split; [exact Hinv' |]. split; [exact Hsz |].
  destruct Hinv as (_ & HL & _).
  unfold to_string, data. rewrite Hsz.
  rewrite Z2Nat.inj_add by lia.
  rewrite <- take_take_drop. now rewrite Hfront, Hnew.
Qed.


Lemma traits_length_nonzero (s : list Z) :
  Forall (fun c => c <> 0) s -> traits_length s = None.
Proof.
  induction 1 as [| c s Hc Hs IH]; [reflexivity |].
  cbn [traits_length]. now rewrite (proj2 (Z.eqb_neq c 0) Hc), IH.
Qed.


(** X6.  [append(str)] with a string of any capacity adds the sequence
    of [str]: the result is the concatenation of the two sequences when
    it fits, [std::length_error] with the object unchanged when it does
    not. *)
Theorem append_str_result (Other : Z) (str : basic_inplace_string Other) (this : string_) :
  static_assert_MaxSize Other -> invariant this -> invariant str ->
  (size this + size str <= MaxSize ->
   exists this' : string_,
     append_str str this = Returns tt this' /\
     size this' = size this + size str /\
     to_string this' = to_string this ++ to_string str) /\
  (size this + size str > MaxSize ->
   append_str str this = Throws length_error this).
Proof.
  intros HOther Hinv (Hok & Hsz & _). unfold array_ok in Hok.
  pose proof MaxSize_bounds as HM. pose proof Hinv as (_ & HL & _).
  pose proof impl_size_max_lt_SIZE_MAX as Himpl.
  unfold static_assert_MaxSize in HOther.
  unfold append_str. split.
  - intros Hfit.
    destruct (append_to_string this (data str) (size str) Hinv)
      as (this' & Hrun & _ & Hsz' & Hstr); [unfold data; lia | lia |].
    exists this'. auto.
  - intros Hover. apply append_throws; [exact Hover |].
    destruct impl_size_bits_CharT_bits as [_ Hbits].
    unfold impl_size_max, SIZE_MAX, size_t_bits in *.
    destruct Hbits as [E | [E | E]]; rewrite E in *; lia.
Qed.




Lemma eval_view_substr_throws {A} (sv : string_view) (pos n : Z)
    (k : string_view -> method string_ A) (this : string_) :
  pos > sv_size sv ->
  (eval_view_substr (view_substr sv pos n) ≫= k) this = Throws out_of_range this.
Proof.
  intros Hpos. unfold mbind, method_bind, view_substr.
  destruct (pos >? sv_size sv) eqn:E; [reflexivity | lia].
Qed.

Lemma eval_view_substr_returns {A} (sv : string_view) (pos n : Z)
    (k : string_view -> method string_ A) (this : string_) :
  0 <= pos <= sv_size sv -> sv_size sv <= SIZE_MAX ->
  (eval_view_substr (view_substr sv pos n) ≫= k) this
  = k {| sv_data := pointer_add (sv_data sv) pos;
         sv_size := Z.min n (sv_size sv - pos) |} this.
Proof.
  intros Hpos Hsv. unfold mbind, method_bind, view_substr.
  destruct (pos >? sv_size sv) eqn:E; [lia |].
  now rewrite wrap_size_t_small by lia.
Qed.

(** X8.  [assign(t, pos, count)] takes the part of the view of [t] that
    starts at [pos], clamped like [substr]; an offset beyond the length
    of the view throws [std::out_of_range] and leaves the object
    unchanged.  The part replaces the content when the view lies
    outside the object's array, or inside it beyond the cell that
    receives the terminator and before the last cell.  For a view of
    the object's own array that starts at or after the end of the
    destination, the characters copied are those the cells hold once
    the terminator and the size are stored. *)
Theorem assign_substring_result (this : string_) (sv : string_view) (pos count : Z) :
  array_ok this -> 0 <= sv_size sv <= SIZE_MAX ->
  0 <= pos -> 0 <= count ->
  (pos > sv_size sv ->
   assign_sv_pos sv pos count this = Throws out_of_range this) /\
  (pos <= sv_size sv ->
   Z.min count (sv_size sv - pos) <= MaxSize ->
   (forall a : list Z,
       sv_data sv = external a -> sv_size sv <= Z.of_nat (length a) ->
       exists this' : string_,
         assign_sv_pos sv pos count this = Returns tt this' /\
         to_string this'
         = take (Z.to_nat (Z.min count (sv_size sv - pos))) (drop (Z.to_nat pos) a)) /\
   (forall off : nat,
       sv_data sv = internal off ->
       Z.min count (sv_size sv - pos) < Z.of_nat off + pos ->
       Z.of_nat off + pos + Z.min count (sv_size sv - pos) <= MaxSize ->
       exists this' : string_,
         assign_sv_pos sv pos count this = Returns tt this' /\
         to_string this'
         = take (Z.to_nat (Z.min count (sv_size sv - pos)))
                (drop (off + Z.to_nat pos) (chars_ this))) /\
   (forall off : nat,
       sv_data sv = internal off ->
       Z.of_nat off + sv_size sv <= MaxSize + 1 ->
       Z.min count (sv_size sv - pos) <= Z.of_nat off + pos ->
       exists mid this' : string_,
         set_size (Z.min count (sv_size sv - pos)) this = Returns tt mid /\
         assign_sv_pos sv pos count this = Returns tt this' /\
         to_string this'
         = take (Z.to_nat (Z.min count (sv_size sv - pos)))
                (drop (off + Z.to_nat pos) (chars_ mid)))).
Proof.
  intros Hok Hsv Hpos Hcount.
  split; [intros Hover; apply eval_view_substr_throws; exact Hover |].
  intros Hle Hfit.
  set (m := Z.min count (sv_size sv - pos)) in *.
  assert (Hrun : assign_sv_pos sv pos count this
                 = assign (pointer_add (sv_data sv) pos) m this).
  { unfold assign_sv_pos. rewrite eval_view_substr_returns by lia. reflexivity. }
  rewrite Hrun. split; [| split].
  - intros a Ha Hlen. rewrite Ha. cbn [pointer_add].
    destruct (assign_returns this (drop (Z.to_nat pos) a) m Hok)
      as (this' & Hassign & _ & _ & Hstr); [lia | rewrite length_drop; lia |].
    exists this'. split; [exact Hassign | exact Hstr].
  - intros off Hoff Hbeyond Hend. rewrite Hoff. cbn [pointer_add].
    destruct (assign_internal_returns this m (off + Z.to_nat pos) Hok)
      as (this' & Hassign & _ & _ & Hstr); [lia | lia |].
    exists this'. split; [exact Hassign | exact Hstr].
  - intros off Hoff Hin Hafter. rewrite Hoff. cbn [pointer_add].
    destruct (assign_reads_after_set_size this (internal (off + Z.to_nat pos)) m Hok)
      as (mid & this' & Hmid & Hassign & _ & _ & Hstr);
      [lia | | cbn [not_in_destination]; lia |].
    { cbn [cells_at]. rewrite length_drop. unfold array_ok in Hok. lia. }
    exists mid, this'. split; [exact Hmid |]. split; [exact Hassign | exact Hstr].
Qed.

Lemma npos_SIZE_MAX : npos = SIZE_MAX.
Proof. reflexivity. Qed.

Lemma assign_fill_returns (this : string_) (count ch : Z) :
  array_ok this -> 0 <= count <= MaxSize ->
  exists this' : string_,
    assign_fill count ch this = Returns tt this' /\
    invariant this' /\ size this' = count /\
    to_string this' = replicate (Z.to_nat count) ch.
Proof.
  intros Hok Hc. pose proof MaxSize_bounds as HM.
  pose proof (set_size_establishes this count Hok Hc) as [Hinv Hsz].
  set (mid := Build_basic_inplace_string
                (array_set (array_set (chars_ this) count 0) MaxSize
                           (@encoded_size MaxSize count)) : string_) in *.
  pose proof (write_below_size mid 0 (replicate (Z.to_nat count) ch) Hinv) as Hw.
  rewrite length_replicate in Hw. specialize (Hw ltac:(lia) ltac:(lia)).
  cbv zeta in Hw. destruct Hw as [Hinv' Hsz'].
  eexists. split; [| split; [exact Hinv' | split; [lia |]]].
  - unfold assign_fill, mbind, method_bind.
    rewrite assert_passes by (rewrite npos_SIZE_MAX; lia).
    rewrite assert_passes by lia.
    rewrite set_size_returns by lia. fold mid.
    rewrite traits_assign_returns by lia. reflexivity.
  - unfold to_string, data. rewrite Hsz', Hsz. cbn [chars_].
    change (Z.to_nat 0) with 0%nat.
    rewrite <- (length_replicate (Z.to_nat count) ch) at 1.
    rewrite <- (drop_0 (list_inserts _ _ _)).
    apply take_drop_list_inserts.
    rewrite length_replicate. destruct Hinv as (Hlen & _). unfold array_ok in Hlen. lia.
Qed.

(** X9.  [assign(count, ch)] and the constructor from a count and a
    character give [count] copies of [ch] when [count <= MaxSize].
    Beyond the capacity the assertion fails in a build with assertions;
    under [NDEBUG] the call throws [std::length_error] to the caller
    with the object unchanged, this overload not being [noexcept]. *)
Theorem assign_fill_result (this : string_) (count ch : Z) :
  array_ok this -> 0 <= count ->
  (count <= MaxSize ->
   exists this' : string_,
     assign_fill count ch this = Returns tt this' /\
     ctor_fill count ch this = Returns tt this' /\
     size this' = count /\
     to_string this' = replicate (Z.to_nat count) ch) /\
  (count > MaxSize ->
   assign_fill count ch this
   = if NDEBUG then Throws length_error this else AssertionFailed).
Proof.
  intros Hok Hc. split.
  - intros Hle.
    destruct (assign_fill_returns this count ch Hok ltac:(lia))
      as (this' & Hrun & _ & Hsz & Hstr).
    exists this'. auto.
  - intros Hover. unfold assign_fill, mbind, method_bind, assert_.
    destruct NDEBUG.
    + now rewrite set_size_throws by exact Hover.
    + destruct (count <? npos); [| reflexivity].
      destruct (count <=? MaxSize) eqn:E; [lia | reflexivity].
Qed.

(** X10.  [operator=(value_type c)] leaves the one-character string [c]
    when [MaxSize >= 1].  For [MaxSize == 0] it never returns: the
    assertion fails or, under [NDEBUG], the [std::length_error] cannot
    leave the [noexcept] operator and the program is terminated. *)
Theorem operator_assign_char_result (this : string_) (c : Z) :
  array_ok this ->
  (1 <= MaxSize ->
   exists this' : string_,
     operator_assign_char c this = Returns tt this' /\
     size this' = 1 /\ to_string this' = [c]) /\
  (MaxSize = 0 ->
   operator_assign_char c this = if NDEBUG then Terminated else AssertionFailed).
Proof.
  intros Hok. unfold operator_assign_char, noexcept. split.
  - intros HM.
    destruct (assign_fill_returns this 1 c Hok ltac:(lia))
      as (this' & Hrun & _ & Hsz & Hstr).
    exists this'. rewrite Hrun. auto.
  - intros HM. unfold assign_fill, mbind, method_bind, assert_.
    destruct NDEBUG.
    + now rewrite set_size_throws by lia.
    + change (1 <? npos) with true. cbv iota.
      destruct (1 <=? MaxSize) eqn:E; [lia | reflexivity].
Qed.

Lemma assign_range_is_assign (this : string_) (first : const_pointer) (count : Z) :
  array_ok this -> 0 <= count <= MaxSize ->
  assign_range first count this = assign first count this.
Proof.
  intros Hok Hc.
  pose proof (set_size_establishes this count Hok Hc) as [_ Hsz]. cbv zeta in Hsz.
  unfold assign_range, assign, noexcept, gets, mbind, method_bind.
  rewrite assert_passes by lia.
  rewrite set_size_returns by lia. rewrite Hsz.
  assert (Hcopy : forall (src : list Z) (mid : string_),
             match traits_copy 0 src count mid with
             | Throws _ _ => Terminated
             | r => r
             end = traits_copy 0 src count mid).
  { intros src mid. unfold traits_copy, undefined, write_chars.
    destruct (_ <? count); [reflexivity |]. now destruct (MaxSize + 1 <? _). }
  unfold traits_copy_to_data, gets, mbind, method_bind.
  destruct first as [a | off]; [now rewrite Hcopy |].
  destruct (Z.of_nat off <? count); [reflexivity | now rewrite Hcopy].
Qed.

(** X11.  [assign(first, last)] and the constructor from an iterator
    range copy the range when it has at most [MaxSize] elements and
    lies outside the object's array, or inside it beyond the cell that
    receives the terminator and before the last cell; for a range of
    the object's own array that starts at or after the end of the
    destination, the characters copied are those the cells hold once
    the terminator and the size are stored.  A
    longer range throws [std::length_error], in every build, and the
    object is unchanged: this overload has no assertion and is not
    [noexcept]. *)
Theorem assign_range_result
  (this : string_) (first : const_pointer) (r : list Z) (count : Z) :
  array_ok this ->
  (Z.of_nat (length r) <= MaxSize ->
   exists this' : string_,
     assign_range (external r) (Z.of_nat (length r)) this = Returns tt this' /\
     ctor_range r this = Returns tt this' /\
     size this' = Z.of_nat (length r) /\
     to_string this' = r) /\
  (forall off : nat,
      0 <= count < Z.of_nat off -> Z.of_nat off + count <= MaxSize ->
      exists this' : string_,
        assign_range (internal off) count this = Returns tt this' /\
        size this' = count /\
        to_string this' = take (Z.to_nat count) (drop off (chars_ this))) /\
  (forall off : nat,
      0 <= count <= MaxSize -> Z.of_nat off + count <= MaxSize + 1 ->
      count <= Z.of_nat off ->
      exists mid this' : string_,
        set_size count this = Returns tt mid /\
        assign_range (internal off) count this = Returns tt this' /\
        size this' = count /\
        to_string this' = take (Z.to_nat count) (drop off (chars_ mid))) /\
  (count > MaxSize -> assign_range first count this = Throws length_error this) /\
  (Z.of_nat (length r) > MaxSize -> ctor_range r this = Throws length_error this).
Proof.
  intros Hok. unfold ctor_range. split; [| split; [| split; [| split]]].
  - intros Hfit. rewrite assign_range_is_assign by (auto; lia).
    destruct (assign_returns this r (Z.of_nat (length r)) Hok)
      as (this' & Hrun & _ & Hsz & Hstr); [lia | lia |].
    exists this'. split; [exact Hrun |]. split; [exact Hrun |].
    split; [exact Hsz |]. rewrite Hstr, Nat2Z.id. apply firstn_all.
  - intros off Hc Hend. rewrite assign_range_is_assign by (auto; lia).
    destruct (assign_internal_returns this count off Hok)
      as (this' & Hrun & _ & Hsz & Hstr); [lia | lia |].
    exists this'. auto.
  - intros off Hc Hin Hafter. rewrite assign_range_is_assign by (auto; lia).
    destruct (assign_reads_after_set_size this (internal off) count Hok)
      as (mid & this' & Hmid & Hrun & _ & Hsz & Hstr);
      [lia | | cbn [not_in_destination]; lia |].
    { cbn [cells_at]. rewrite length_drop. unfold array_ok in Hok. lia. }
    exists mid, this'. auto.
  - intros Hover. unfold assign_range, mbind, method_bind.
    now rewrite set_size_throws by exact Hover.
  - intros Hover. unfold assign_range, mbind, method_bind.
    now rewrite set_size_throws by exact Hover.
Qed.


(** X13.  The assignment [s.at(pos) = c] with [pos < size()] replaces
    the one character at [pos]: the size and every other cell stay as
    they were; with [pos >= size()] the call throws [std::out_of_range]
    and nothing is written. *)
Theorem store_at_result (this : string_) (pos c : Z) :
  invariant this -> 0 <= pos ->
  (pos < size this ->
   exists this' : string_,
     (r ← at_ pos; store r c) this = Returns tt this' /\
     size this' = size this /\
     to_string this' = <[Z.to_nat pos := c]> (to_string this) /\
     (forall i : nat, i <> Z.to_nat pos -> chars_ this' !! i = chars_ this !! i)) /\
  (pos >= size this ->
   (r ← at_ pos; store r c) this = Throws out_of_range this).
Proof.
  intros Hinv Hpos. pose proof Hinv as (Hok & HL & _). split.
  - intros Hlt.
    pose proof (write_below_size this pos [c] Hinv Hpos ltac:(simpl; lia)) as Hw.
    cbv zeta in Hw. destruct Hw as [_ Hsz].
    eexists. split; [| split; [exact Hsz | split]].
    + unfold mbind, method_bind, at_.
      destruct (pos >=? size this) eqn:E; [lia |].
      rewrite operator_index_below_size by lia.
      unfold store, array_set. reflexivity.
    + unfold to_string, data. rewrite Hsz. cbn [chars_ list_inserts].
      apply take_insert_lt. lia.
    + intros i Hi. cbn [chars_ list_inserts]. now apply list_lookup_insert_ne.
  - intros Hge. unfold mbind, method_bind, at_.
    destruct (pos >=? size this) eqn:E; [reflexivity | lia].
Qed.

(** X14.  The accessors without a check of their own go through
    [*(begin() + pos)].  Below [size()] they designate the cell asked
    for in every build: [front()] is cell 0 and [back()] is cell
    [size() - 1] of a non-empty string.  At [size()] and beyond the
    builds differ.  With plain pointers as iterators
    [operator[](size())] designates the terminator, and so does
    [front()] on an empty string, while [back()] on an empty string
    computes the index [size() - 1] in [size_type], which wraps around
    and leaves the array.  With checked iterators over [size()] cells
    all three abort the program.  The cell at [size()] holds zero. *)
Theorem unchecked_access (this : string_) :
  invariant this ->
  (forall pos : Z, 0 <= pos < size this ->
                   operator_index pos this = Returns pos this) /\
  (size this <> 0 ->
   front this = Returns 0 this /\ back this = Returns (size this - 1) this) /\
  operator_index (size this) this
  = (if checked_iterators then AssertionFailed else Returns (size this) this) /\
  load (size this) this = 0 /\
  (size this = 0 ->
   front this = (if checked_iterators then AssertionFailed else Returns 0 this) /\
   back this = (if checked_iterators then AssertionFailed else Undefined) /\
   load 0 this = 0).
Proof.
  intros (Hok & HL & Hterm & _). pose proof MaxSize_bounds as HM.
  assert (Hload : load (size this) this = 0).
  { unfold load, array_get. now apply list_lookup_total_correct. }
  assert (Hbelow : forall pos : Z, 0 <= pos < size this ->
                                   operator_index pos this = Returns pos this).
  { intros pos Hpos. apply operator_index_below_size; lia. }
  split; [exact Hbelow |]. split; [| split; [| split; [exact Hload |]]].
  - intros Hne. split; [apply Hbelow; lia |].
    unfold back, gets, mbind, method_bind.
    rewrite wrap_size_t_small by lia. apply Hbelow. lia.
  - unfold operator_index. rewrite Z.ltb_irrefl.
    destruct (size this <=? MaxSize) eqn:E; [reflexivity | lia].
  - intros Hempty. split; [| split; [| now rewrite <- Hempty at 1]].
    + unfold front, operator_index. rewrite Hempty. rewrite Z.ltb_irrefl.
      destruct (0 <=? MaxSize) eqn:E; [reflexivity | lia].
    + unfold back, gets, mbind, method_bind, operator_index. rewrite Hempty.
      change (wrap_size_t (0 - 1)) with SIZE_MAX.
      change (SIZE_MAX <? 0) with false.
      destruct (SIZE_MAX <=? MaxSize) eqn:E; [lia | reflexivity].
Qed.

Lemma until_zero_nonzero (l : list Z) : Forall (fun c => c <> 0) (until_zero l).
Proof.
  induction l as [| c l IH]; simpl; [constructor |].
  destruct (Z.eqb_spec c 0); [constructor | now constructor].
Qed.

Lemma until_zero_id (l : list Z) : Forall (fun c => c <> 0) l -> until_zero l = l.
Proof.
  induction 1 as [| c l Hc Hl IH]; [reflexivity |].
  simpl. now rewrite (proj2 (Z.eqb_neq c 0) Hc), IH.
Qed.

Lemma until_zero_id_inv (l : list Z) : until_zero l = l -> Forall (fun c => c <> 0) l.
Proof. intros <-. apply until_zero_nonzero. Qed.

(** The null-terminated array that starts with the cells of [l] up to a
    zero at index [k]: its C string is the part of [take k l] before its
    first zero. *)
Lemma c_string_range_terminated (l : list Z) (k : nat) :
  l !! k = Some 0 ->
  exists n : Z,
    traits_length l = Some n /\ 0 <= n <= Z.of_nat k /\
    take (Z.to_nat n) l = until_zero (take k l).
Proof.
  revert k. induction l as [| c l IH]; intros k Hk; [discriminate |].
  cbn [traits_length]. destruct (Z.eqb_spec c 0) as [-> | Hc].
  - exists 0. split; [reflexivity |]. split; [lia |].
    destruct k; reflexivity.
  - destruct k as [| k]; [simpl in Hk; congruence |].
    destruct (IH k Hk) as (n & Hlen & Hn & Htake).
    exists (Z.succ n). rewrite Hlen. split; [reflexivity |]. split; [lia |].
    rewrite Z2Nat.inj_succ by lia. cbn [take until_zero].
    rewrite (proj2 (Z.eqb_neq c 0) Hc). now rewrite Htake.
Qed.

Lemma c_str_range (this : string_) :
  invariant this ->
  exists n : Z,
    traits_length (c_str this) = Some n /\ 0 <= n <= size this /\
    c_string_range (c_str this) = Some (until_zero (to_string this)).
Proof.
  intros (Hok & HL & Hterm & _).
  destruct (c_string_range_terminated (chars_ this) (Z.to_nat (size this)) Hterm)
    as (n & Hlen & Hn & Htake).
  exists n. unfold c_str, data, c_string_range, to_string.
  rewrite Hlen. split; [reflexivity |]. split; [lia |].
  cbn. now rewrite Htake.
Qed.

(** X15.  For every string that satisfies the invariants, [c_str()]
    (and [data()]) is a null-terminated array whose terminator stands at
    or before index [size()], so that a scan for the terminator stays
    inside the array.  The C string it denotes is the sequence up to its
    first zero character: the whole sequence exactly when the sequence
    holds no zero character. *)
Theorem c_str_null_terminated (this : string_) :
  invariant this ->
  exists n : Z,
    traits_length (c_str this) = Some n /\
    0 <= n <= size this /\
    c_string_range (c_str this) = Some (until_zero (to_string this)) /\
    (n = size this <-> Forall (fun c => c <> 0) (to_string this)).
Proof.
  intros Hinv. destruct (c_str_range this Hinv) as (n & Hlen & Hn & Hrange).
  exists n. split; [exact Hlen |]. split; [exact Hn |]. split; [exact Hrange |].
  pose proof (length_to_string this Hinv) as Hsize.
  assert (Htake : take (Z.to_nat n) (c_str this) = until_zero (to_string this)).
  { unfold c_string_range in Hrange. rewrite Hlen in Hrange. cbn in Hrange.
    now injection Hrange. }
  assert (Hn' : length (until_zero (to_string this)) = Z.to_nat n).
  { rewrite <- Htake, length_take.
    destruct Hinv as (Hok & HL & _). unfold c_str, data, array_ok in *. lia. }
  split.
  - intros ->. apply until_zero_id_inv. now rewrite <- Htake.
  - intros Hnz. rewrite (until_zero_id _ Hnz) in Hn'. lia.
Qed.

(** X16.  [os << v] appends to the stream the sequence of [v] up to its
    first zero character, and the whole sequence when it holds none; it
    never scans beyond the array. *)
Theorem stream_output (this : string_) (os : list Z) :
  invariant this ->
  operator_shl os this = Some (os ++ until_zero (to_string this)) /\
  (Forall (fun c => c <> 0) (to_string this) ->
   operator_shl os this = Some (os ++ to_string this)).
Proof.
  intros Hinv. destruct (c_str_range this Hinv) as (n & _ & _ & Hrange).
  assert (H : operator_shl os this = Some (os ++ until_zero (to_string this))).
  { unfold operator_shl, ostream_insert_c_string. unfold c_str in Hrange.
    rewrite Hrange. reflexivity. }
  split; [exact H |]. intros Hnz. now rewrite H, (until_zero_id _ Hnz).
Qed.

(** *** Comparisons *)

Lemma bool_eq_iff (b1 b2 : bool) : (b1 = true <-> b2 = true) -> b1 = b2.
Proof.
  destruct b1, b2; intros [H1 H2]; try reflexivity.
  - symmetry. now apply H1.
  - now apply H2.
Qed.

Lemma std_equal_sym (r1 r2 : list Z) : std_equal r1 r2 = std_equal r2 r1.
Proof. apply bool_eq_iff. rewrite !std_equal_spec. split; congruence. Qed.

Lemma c_string_range_app (p rest : list Z) :
  Forall (fun c => c <> 0) p -> c_string_range (p ++ 0 :: rest) = Some p.
Proof.
  intros Hp. unfold c_string_range. rewrite (traits_length_app p rest Hp). cbn.
  now rewrite Nat2Z.id, take_app_length.
Qed.

Lemma c_string_range_nonzero (p : list Z) :
  Forall (fun c => c <> 0) p -> c_string_range p = None.
Proof. intros Hp. unfold c_string_range. now rewrite (traits_length_nonzero p Hp). Qed.

(** X17.  Comparing a string with a null-terminated array compares the
    sequence of the string with the characters of the array before its
    terminator: [==] is equality of the two sequences and [<] the
    lexicographic order, with either operand order, and the mirrored
    overloads agree ([p < s] is [s > p], [!(p < s)] is [s <= p], ...).
    With an array that holds no zero character no comparison has a
    result. *)
Theorem c_string_comparisons (this : string_) (p rest : list Z) :
  Forall (fun c => c <> 0) p ->
  (exists b : bool,
      operator_eq_str_ptr this (p ++ 0 :: rest) = Some b /\
      operator_eq_ptr_str (p ++ 0 :: rest) this = Some b /\
      operator_ne_str_ptr this (p ++ 0 :: rest) = Some (negb b) /\
      operator_ne_ptr_str (p ++ 0 :: rest) this = Some (negb b) /\
      (b = true <-> to_sv this = p)) /\
  (exists b : bool,
      operator_lt_str_ptr this (p ++ 0 :: rest) = Some b /\
      operator_gt_ptr_str (p ++ 0 :: rest) this = Some b /\
      operator_ge_str_ptr this (p ++ 0 :: rest) = Some (negb b) /\
      operator_le_ptr_str (p ++ 0 :: rest) this = Some (negb b) /\
      (b = true <-> lexicographically_less (to_sv this) p)) /\
  (exists b : bool,
      operator_lt_ptr_str (p ++ 0 :: rest) this = Some b /\
      operator_gt_str_ptr this (p ++ 0 :: rest) = Some b /\
      operator_le_str_ptr this (p ++ 0 :: rest) = Some (negb b) /\
      operator_ge_ptr_str (p ++ 0 :: rest) this = Some (negb b) /\
      (b = true <-> lexicographically_less p (to_sv this))) /\
  (operator_eq_str_ptr this p = None /\ operator_eq_ptr_str p this = None /\
   operator_lt_str_ptr this p = None /\ operator_lt_ptr_str p this = None).
Proof.
  intros Hp. pose proof (c_string_range_app p rest Hp) as Hrange.
  pose proof (c_string_range_nonzero p Hp) as Hnone.
  unfold operator_ne_str_ptr, operator_ne_ptr_str, operator_ge_str_ptr,
    operator_ge_ptr_str, operator_le_str_ptr, operator_le_ptr_str,
    operator_gt_str_ptr, operator_gt_ptr_str, operator_eq_str_ptr,
    operator_eq_ptr_str, operator_lt_str_ptr, operator_lt_ptr_str, to_sv, begin_end.
  rewrite Hrange, Hnone. cbn.
  split; [| split; [| split]].
  - exists (std_equal (take (Z.to_nat (size this)) (data this)) p).
    rewrite (std_equal_sym p). repeat (split; [reflexivity |]).
    apply std_equal_spec.
  - exists (std_lexicographical_compare (take (Z.to_nat (size this)) (data this)) p).
    repeat (split; [reflexivity |]). apply std_lexicographical_compare_spec.
  - exists (std_lexicographical_compare p (take (Z.to_nat (size this)) (data this))).
    repeat (split; [reflexivity |]). apply std_lexicographical_compare_spec.
  - repeat split; reflexivity.
Qed.

(** X18.  Comparing [a] with [b.c_str()] gives what comparing [a] with
    [b] gives, for every [b] whose sequence holds no zero character; and
    a string is equal to its own [c_str()] exactly when its sequence
    holds no zero character. *)
Theorem compare_with_c_str (a b : string_) :
  invariant a -> invariant b ->
  (Forall (fun c => c <> 0) (to_string b) ->
   operator_eq_str_ptr a (c_str b) = Some (operator_eq a b) /\
   operator_ne_str_ptr a (c_str b) = Some (operator_ne a b) /\
   operator_lt_str_ptr a (c_str b) = Some (operator_lt a b) /\
   operator_le_str_ptr a (c_str b) = Some (operator_le a b) /\
   operator_gt_str_ptr a (c_str b) = Some (operator_gt a b) /\
   operator_ge_str_ptr a (c_str b) = Some (operator_ge a b)) /\
  (operator_eq_str_ptr a (c_str a) = Some true <->
   Forall (fun c => c <> 0) (to_string a)).
Proof.
  intros Ha Hb.
  destruct (c_str_range a Ha) as (na & _ & _ & Hra).
  destruct (c_str_range b Hb) as (nb & _ & _ & Hrb).
  split.
  - intros Hnz. rewrite (until_zero_id _ Hnz) in Hrb.
    unfold operator_ne_str_ptr, operator_ge_str_ptr, operator_le_str_ptr,
      operator_gt_str_ptr, operator_eq_str_ptr, operator_lt_str_ptr,
      operator_lt_ptr_str.
    rewrite Hrb. repeat split; reflexivity.
  - unfold operator_eq_str_ptr. rewrite Hra. cbn.
    change (begin_end a) with (to_string a). split.
    + intros [= Heq]. apply std_equal_spec in Heq.
      apply until_zero_id_inv. now symmetry.
    + intros Hnz. rewrite (until_zero_id _ Hnz). f_equal. now apply std_equal_spec.
Qed.

Lemma lexicographically_less_irrefl (l : list Z) : ~ lexicographically_less l l.
Proof.
  induction l as [| x l IH]; intros H; inversion H; subst; [lia | auto].
Qed.

Lemma lexicographically_less_trans (l1 l2 l3 : list Z) :
  lexicographically_less l1 l2 -> lexicographically_less l2 l3 ->
  lexicographically_less l1 l3.
Proof.
  intros H12. revert l3.
  induction H12 as [y r2 | x y r1 r2 Hlt | x r1 r2 Hless IH]; intros l3 H23;
    inversion H23; subst.
  - apply less_proper_prefix.
  - apply less_proper_prefix.
  - apply less_first_difference. lia.
  - now apply less_first_difference.
  - now apply less_first_difference.
  - apply less_after_equal. now apply IH.
Qed.

(** X19.  On strings of one capacity [==] is an equivalence and [<] a
    strict total order compatible with it: [<] is irreflexive,
    asymmetric and transitive, exactly one of [a < b], [a == b],
    [a > b] holds, and [a <= b] with [b <= a] gives [a == b]. *)
Theorem relational_operators_total_order (a b c : string_) :
  operator_eq a a = true /\
  operator_eq a b = operator_eq b a /\
  (operator_eq a b = true -> operator_eq b c = true -> operator_eq a c = true) /\
  operator_lt a a = false /\
  (operator_lt a b = true -> operator_lt b a = false) /\
  (operator_lt a b = true -> operator_lt b c = true -> operator_lt a c = true) /\
  (operator_lt a b = true \/ operator_eq a b = true \/ operator_gt a b = true) /\
  (operator_eq a b = true -> operator_lt a b = false /\ operator_gt a b = false) /\
  (operator_le a b = true -> operator_le b a = true -> operator_eq a b = true).
Proof.
  unfold operator_le, operator_gt, operator_lt, operator_eq.
  set (la := begin_end a). set (lb := begin_end b). set (lc := begin_end c).
  assert (Hirr : forall l, std_lexicographical_compare l l = false).
  { intros l. apply not_true_iff_false. rewrite std_lexicographical_compare_spec.
    apply lexicographically_less_irrefl. }
  assert (Hasym : forall l1 l2, std_lexicographical_compare l1 l2 = true ->
                                std_lexicographical_compare l2 l1 = false).
  { intros l1 l2 H. apply std_lexicographical_compare_total. now left. }
  split; [now apply std_equal_spec |].
  split; [apply std_equal_sym |].
  split; [rewrite !std_equal_spec; congruence |].
  split; [apply Hirr |].
  split; [apply Hasym |].
  split.
  { rewrite !std_lexicographical_compare_spec. apply lexicographically_less_trans. }
  split.
  { destruct (std_lexicographical_compare lb la) eqn:E; [auto |].
    apply std_lexicographical_compare_total in E as [E | E]; [auto |].
    right; left. now apply std_equal_spec. }
  split.
  { intros Heq. apply std_equal_spec in Heq. rewrite Heq. split; apply Hirr. }
  rewrite !negb_true_iff. intros Hba Hab.
  apply std_lexicographical_compare_total in Hba as [Hlt | Heq].
  - congruence.
  - now apply std_equal_spec.
Qed.

(** X20.  A string constructed from a null-terminated array holds the
    characters before the terminator, gives them back through
    [c_str()], and compares equal to the array it was made from.  When
    they exceed the capacity the constructor fails its assertion or,
    under [NDEBUG], terminates the program; an array without a zero
    character makes the call undefined. *)
Theorem c_string_round_trip (storage : string_) (p rest : list Z) :
  array_ok storage -> Forall (fun c => c <> 0) p ->
  (Z.of_nat (length p) <= MaxSize ->
   exists a : string_,
     ctor_c_str (p ++ 0 :: rest) storage = Returns tt a /\
     to_string a = p /\
     c_string_range (c_str a) = Some p /\
     operator_eq_str_ptr a (p ++ 0 :: rest) = Some true /\
     operator_eq_ptr_str (p ++ 0 :: rest) a = Some true) /\
  (Z.of_nat (length p) > MaxSize ->
   ctor_c_str (p ++ 0 :: rest) storage
   = if NDEBUG then Terminated else AssertionFailed) /\
  ctor_c_str p storage = Undefined.
Proof.
  intros Hok Hp. pose proof (traits_length_app p rest Hp) as Hlen.
  pose proof (c_string_range_app p rest Hp) as Hrange.
  split; [| split].
  - intros Hfit.
    destruct (ctor_c_str_returns storage (p ++ 0 :: rest) _ Hok Hlen Hfit)
      as (a & Hrun & Hstr & _ & Hinv).
    rewrite Nat2Z.id, take_app_length in Hstr.
    destruct (c_str_range a Hinv) as (n & _ & _ & Hcstr).
    rewrite Hstr, (until_zero_id _ Hp) in Hcstr.
    exists a. split; [exact Hrun |]. split; [exact Hstr |]. split; [exact Hcstr |].
    unfold operator_eq_str_ptr, operator_eq_ptr_str. rewrite Hrange. cbn.
    change (begin_end a) with (to_string a). rewrite Hstr.
    split; f_equal; now apply std_equal_spec.
  - intros Hover.
    unfold ctor_c_str, c_string_length, noexcept at 1, mbind, method_bind.
    rewrite Hlen. unfold mret, method_ret, ctor_ptr_count, noexcept.
    rewrite assign_over_capacity by exact Hover. now destruct NDEBUG.
  - unfold ctor_c_str, c_string_length, noexcept, mbind, method_bind.
    now rewrite (traits_length_nonzero p Hp).
Qed.

Lemma until_zero_app_zeros (l : list Z) (k : nat) :
  Forall (fun c => c <> 0) l -> until_zero (l ++ replicate k 0) = l.
Proof.
  induction 1 as [| c l Hc Hl IH]; simpl.
  - destruct k; reflexivity.
  - now rewrite (proj2 (Z.eqb_neq c 0) Hc), IH.
Qed.

(** X21.  Growing a string without zero characters by [resize(n)] fills
    the new positions with the zero character: [size()] becomes [n],
    but [c_str()] still denotes the old sequence and [os << v] prints
    what it printed before. *)
Theorem resize_default_fill_hidden (this : string_) (n : Z) :
  invariant this -> Forall (fun c => c <> 0) (to_string this) ->
  size this <= n <= MaxSize ->
  exists this' : string_,
    resize1 n this = Returns tt this' /\
    size this' = n /\
    to_string this' = to_string this ++ replicate (Z.to_nat (n - size this)) 0 /\
    c_string_range (c_str this') = Some (to_string this) /\
    (forall os, operator_shl os this' = operator_shl os this).
Proof.
  intros Hinv Hnz Hn. pose proof Hinv as (_ & HL & _).
  destruct (resize_returns this n 0 Hinv ltac:(lia)) as (this' & Hrun & Hinv' & Hsz & Hstr).
  rewrite take_ge in Hstr by (rewrite length_to_string by exact Hinv; lia).
  destruct (c_str_range this' Hinv') as (k & _ & _ & Hrange').
  destruct (c_str_range this Hinv) as (k0 & _ & _ & Hrange).
  rewrite Hstr, (until_zero_app_zeros _ _ Hnz) in Hrange'.
  rewrite (until_zero_id _ Hnz) in Hrange.
  exists this'. split; [exact Hrun |]. split; [exact Hsz |]. split; [exact Hstr |].
  split; [exact Hrange' |].
  intros os. unfold operator_shl, ostream_insert_c_string.
  unfold c_str in Hrange, Hrange'. now rewrite Hrange, Hrange'.
Qed.

(** X22.  [clear()] never throws, and [clear()] followed by
    [append(s, n)] leaves the very object that [assign(s, n)] leaves. *)
Theorem clear_then_append_is_assign (this : string_) (s : list Z) (n : Z) :
  array_ok this -> 0 <= n <= Z.of_nat (length s) -> n <= MaxSize ->
  exists empty_ this' : string_,
    clear this = Returns tt empty_ /\
    size empty_ = 0 /\ empty empty_ = true /\
    append s n empty_ = Returns tt this' /\
    assign (external s) n this = Returns tt this' /\
    to_string this' = take (Z.to_nat n) s.
Proof.
  intros Hok Hn Hfit. pose proof MaxSize_bounds as HM.
  pose proof (set_size_establishes this 0 Hok ltac:(lia)) as [Hinv0 Hsz0].
  set (e := Build_basic_inplace_string
              (array_set (array_set (chars_ this) 0 0) MaxSize
                         (@encoded_size MaxSize 0)) : string_) in *.
  destruct (assign_returns this s n Hok ltac:(lia) ltac:(lia))
    as (this' & Hassign & _ & _ & Hstr).
  exists e, this'.
  split; [unfold clear; now rewrite set_size_returns by lia |].
  split; [exact Hsz0 |]. split; [unfold empty; now rewrite Hsz0 |].
  split; [| split; [exact Hassign | exact Hstr]].
  assert (Hrun : append s n e
                 = Returns tt (Build_basic_inplace_string
                     (list_inserts (Z.to_nat 0) (take (Z.to_nat n) s)
                        (array_set (array_set (chars_ e) n 0) MaxSize
                                   (@encoded_size MaxSize n))))).
  { unfold append, gets, mbind, method_bind. rewrite Hsz0.
    rewrite Z.add_0_l, wrap_size_t_small by lia.
    rewrite set_size_returns by lia.
    rewrite traits_copy_returns by lia. reflexivity. }
  assert (Hassign' : assign (external s) n this
                     = Returns tt (Build_basic_inplace_string
                         (list_inserts (Z.to_nat 0) (take (Z.to_nat n) s)
                            (array_set (array_set (chars_ this) n 0) MaxSize
                                       (@encoded_size MaxSize n))))).
  { unfold assign, noexcept, traits_copy_to_data, mbind, method_bind.
    rewrite assert_passes by lia.
    rewrite set_size_returns by lia.
    rewrite traits_copy_returns by lia. reflexivity. }
  rewrite Hassign' in Hassign. injection Hassign as <-. rewrite Hrun.
  do 2 f_equal. apply list_eq. intros i.
  assert (Hrunlen : length (take (Z.to_nat n) s) = Z.to_nat n)
    by (rewrite length_take; lia).
  unfold array_ok in Hok.
  destruct (decide (i < Z.to_nat n)%nat) as [Hi | Hi].
  - rewrite !list_lookup_inserts by
      (rewrite ?Hrunlen; unfold e, array_set; cbn [chars_];
       rewrite ?length_insert; lia).
    reflexivity.
  - rewrite !list_lookup_inserts_ge by (rewrite Hrunlen; lia).
    unfold e, array_set. cbn [chars_].
    destruct (decide (i = Z.to_nat MaxSize)) as [-> | HiM].
    + rewrite !list_lookup_insert_eq by (rewrite ?length_insert; lia). reflexivity.
    + rewrite !(list_lookup_insert_ne _ (Z.to_nat MaxSize)) by lia.
      destruct (decide (i = Z.to_nat n)) as [-> | Hin].
      * rewrite !list_lookup_insert_eq by (rewrite ?length_insert; lia). reflexivity.
      * rewrite !(list_lookup_insert_ne _ (Z.to_nat n)) by lia.
        rewrite !list_lookup_insert_ne by lia. reflexivity.
Qed.

Lemma set_size_same (this : string_) :
  invariant this -> set_size (size this) this = Returns tt this.
Proof.
  intros (Hok & HL & Hterm & Hback).
  rewrite set_size_returns by lia. f_equal.
  destruct this as [a]. cbn [chars_] in *. f_equal. unfold array_set.
  rewrite (list_insert_id a _ _ Hterm). now apply list_insert_id.
Qed.

(** X23.  Calls that add nothing leave the object exactly as it was,
    cell for cell, also when the string is full: [resize(size())],
    [append(s, 0)], [append(0, c)] and appending an empty sequence. *)
Theorem empty_growth_is_identity (this : string_) (s : list Z) (c : Z) :
  invariant this ->
  resize (size this) c this = Returns tt this /\
  append s 0 this = Returns tt this /\
  append_fill 0 c this = Returns tt this /\
  append_sv [] this = Returns tt this /\
  append_range [] this = Returns tt this.
Proof.
  intros Hinv. pose proof Hinv as (Hok & HL & _). pose proof MaxSize_bounds as HM.
  assert (Hresize : resize (size this) c this = Returns tt this).
  { unfold resize, gets, mbind, method_bind.
    rewrite (set_size_same this Hinv).
    destruct (size this >? size this) eqn:E; [lia | reflexivity]. }
  assert (Happend : forall r, append r 0 this = Returns tt this).
  { intros r. unfold append, gets, mbind, method_bind.
    rewrite Z.add_0_r, wrap_size_t_small by lia.
    rewrite (set_size_same this Hinv).
    rewrite traits_copy_returns by lia.
    destruct this as [a]. reflexivity. }
  split; [exact Hresize |]. split; [apply Happend |]. split; [| split].
  - unfold append_fill, gets, mbind, method_bind.
    rewrite Z.add_0_r, wrap_size_t_small by lia. exact Hresize.
  - apply (Happend []).
  - apply (Happend []).
Qed.

(** X24.  [append(n, c)] computes the new size [size() + n] in
    [size_type] and checks the wrapped sum: for [n = 2^64 - k] with
    [0 < k <= size()] the call does not throw, it returns with the
    string shortened by [k] characters. *)
Theorem wrapped_append_fill_shrinks (this : string_) (k c : Z) :
  invariant this -> 0 < k <= size this ->
  is_size_t (SIZE_MAX + 1 - k) /\
  exists this' : string_,
    append_fill (SIZE_MAX + 1 - k) c this = Returns tt this' /\
    size this' = size this - k /\
    to_string this' = take (Z.to_nat (size this - k)) (to_string this).
Proof.
  intros Hinv Hk. pose proof Hinv as (Hok & HL & _). pose proof MaxSize_bounds as HM.
  assert (Hsum : wrap_size_t (size this + (SIZE_MAX + 1 - k)) = size this - k).
  { unfold wrap_size_t, SIZE_MAX, size_t_bits in *.
    replace (size this + (2 ^ 64 - 1 + 1 - k)) with (size this - k + 1 * 2 ^ 64) by lia.
    rewrite Z.mod_add by lia. apply Z.mod_small. lia. }
  split; [unfold is_size_t, SIZE_MAX, size_t_bits in *; lia |].
  destruct (resize_returns this (size this - k) c Hinv ltac:(lia))
    as (this' & Hrun & _ & Hsz & Hstr).
  exists this'. split; [| split; [exact Hsz |]].
  - unfold append_fill, gets, mbind, method_bind. rewrite Hsum. exact Hrun.
  - rewrite Hstr. replace (Z.to_nat (size this - k - size this)) with 0%nat by lia.
    apply app_nil_r.
Qed.

End Capacity.

End CharT.

(** ** The theorems at [inplace_string<5>]: [char] has one byte and is
    signed here; [false] for [NDEBUG] is the build with assertions,
    [false] for [checked_iterators] the build whose iterators are plain
    pointers. *)

Section Examples.

Local Abbreviation char_size := 1 (only parsing).
Local Abbreviation char_signed := true (only parsing).

Lemma char_is_standard : standard_CharT 1.
Proof. unfold standard_CharT. lia. Defined.

Lemma capacity_5_ok : static_assert_MaxSize 1 5.
Proof. unfold static_assert_MaxSize, impl_size_max, impl_size_bits. simpl. lia. Defined.

Ltac evaluate :=
  vm_compute; repeat split; try reflexivity; try discriminate;
  try (intros ?; discriminate).

Lemma storage5_ok : array_ok storage5.
Proof. reflexivity. Defined.

Lemma hello5_invariant : invariant char_size char_signed hello5.
Proof. unfold invariant. evaluate. Defined.

Lemma hel5_invariant : invariant char_size char_signed hel5.
Proof. unfold invariant. evaluate. Defined.

Lemma hel5'_invariant : invariant char_size char_signed hel5'.
Proof. unfold invariant. evaluate. Defined.

(** With [MaxSize = 200] and a signed one-byte [char], the size 3 is kept
    as [197], which the cell holds as [-59]; [size()] reads it back
    through [impl_size_type]. *)
Lemma signed_char_encoding :
  encoded_size (MaxSize := 200) char_size true 3 = -59 /\
  to_impl_size_type char_size (-59) = 197 /\
  encoded_size (MaxSize := 200) char_size false 3 = 197.
Proof. repeat split; reflexivity. Qed.

(** [append(n, c)] computes [size() + n] in [size_type]: a sum that wraps
    around passes the length check, here shortening "hel" to "h". *)
Lemma append_fill_wraps_around :
  append_fill char_size char_signed (SIZE_MAX - 1) 65 hel5
  = Returns tt (Build_basic_inplace_string [104; 0; 108; 0; 7; 4]).
Proof. reflexivity. Qed.

Lemma invariants_after_public_operations_witness :
  invariant char_size char_signed hel5 /\
  call char_size char_signed false false (call_push_back 5 33) hel5
  = Returns tt (Build_basic_inplace_string [104; 101; 108; 33; 0; 1]) /\
  invariant char_size char_signed
    (Build_basic_inplace_string [104; 101; 108; 33; 0; 1] : basic_inplace_string 5).
Proof.
  split; [exact hel5_invariant |]. split; [reflexivity |].
  apply (proj1 (proj2 (invariants_after_public_operations
                         char_size char_signed false false char_is_standard 5
                         capacity_5_ok))
           (call_push_back 5 33) hel5).
  - exact hel5_invariant.
  - simpl. constructor.
  - simpl. exact I.
  - reflexivity.
Defined.

Lemma default_constructed_is_empty_witness :
  array_ok storage5 /\
  exists this : basic_inplace_string 5,
    ctor_default char_size char_signed storage5 = Returns tt this /\
    size char_size this = 0 /\ empty char_size this = true /\
    chars_ this !! 0%nat = Some 0 /\
    traits_length (c_str this) = Some 0 /\
    to_string char_size this = [].
Proof.
  split; [exact storage5_ok |].
  apply (default_constructed_is_empty char_size char_signed char_is_standard 5
           capacity_5_ok storage5).
  exact storage5_ok.
Defined.

Lemma resize_beyond_capacity_throws_witness :
  6 > 5 /\
  resize char_size char_signed 6 33 hel5 = Throws length_error hel5 /\
  resize1 char_size char_signed 6 hel5 = Throws length_error hel5.
Proof.
  split; [lia |].
  apply (resize_beyond_capacity_throws char_size char_signed 5 hel5 6 33). lia.
Defined.

Lemma assign_to_string_round_trip_witness :
  Z.of_nat (length (codes "hello")) <= 5 /\
  (exists this' : basic_inplace_string 5,
      assign char_size char_signed false (external (codes "hello" ++ [0])) 5 storage5
      = Returns tt this' /\
      to_string char_size this' = codes "hello") /\
  take 2 (drop 3 (chars_ hello5)) = codes "lo" /\
  (exists this' : basic_inplace_string 5,
      assign char_size char_signed false (internal 3) 2 hello5 = Returns tt this' /\
      to_string char_size this' = codes "lo").
Proof.
  split; [simpl; lia |]. split.
  - apply (proj1 (assign_to_string_round_trip char_size char_signed false
                    char_is_standard 5 capacity_5_ok storage5 (codes "hello") [0]
                    storage5_ok ltac:(simpl; lia))).
  - split; [reflexivity |].
    apply (proj2 (proj2 (proj2 (proj2
             (assign_to_string_round_trip char_size char_signed false
                char_is_standard 5 capacity_5_ok hello5 (codes "lo") []
                ltac:(reflexivity) ltac:(simpl; lia))))) 3%nat);
      [simpl; lia | simpl; lia | reflexivity].
Defined.

(** C4 as the specification words it fails for a sequence held in the
    object itself.  The object holds "hello" and [s] is its part "ll",
    the cells 2 and 3: [assign(data() + 2, 2)] first stores the
    terminator in cell 2, then copies the cells 2 and 3, and the string
    that comes back is a zero character followed by 'l'.  The same
    happens through [assign(str, 2, 2)] with the object itself as
    [str], and through [assign(begin() + 2, begin() + 4)]. *)
Lemma assign_aliased_source_counterexample :
  invariant char_size char_signed hello5 /\
  take 2 (cells_at (internal 2) hello5) = codes "ll" /\
  Z.of_nat (length (codes "ll")) <= 5 /\
  (exists this' : basic_inplace_string 5,
      assign char_size char_signed false (internal 2) 2 hello5 = Returns tt this' /\
      assign char_size char_signed true (internal 2) 2 hello5 = Returns tt this' /\
      assign_sv_pos char_size char_signed false
        {| sv_data := internal 0; sv_size := size char_size hello5 |} 2 2 hello5
      = Returns tt this' /\
      assign_range char_size char_signed (internal 2) 2 hello5 = Returns tt this' /\
      chars_ this' = [0; 108; 0; 108; 111; 3] /\
      to_string char_size this' = [0; 108] /\
      to_string char_size this' <> codes "ll") /\
  ~ (forall (this this' : basic_inplace_string 5) (p : const_pointer) (s : list Z),
        invariant char_size char_signed this ->
        take (length s) (cells_at p this) = s -> Z.of_nat (length s) <= 5 ->
        assign char_size char_signed false p (Z.of_nat (length s)) this
        = Returns tt this' ->
        to_string char_size this' = s).
Proof.
  split; [exact hello5_invariant |]. split; [reflexivity |]. split; [simpl; lia |].
  split.
  - exists (Build_basic_inplace_string [0; 108; 0; 108; 111; 3]).
    repeat (split; [reflexivity |]). discriminate.
  - intros H.
    specialize (H hello5 (Build_basic_inplace_string [0; 108; 0; 108; 111; 3])
                  (internal 2) (codes "ll") hello5_invariant eq_refl
                  ltac:(simpl; lia) eq_refl).
    discriminate H.
Defined.


Lemma at_checks_position_witness :
  invariant char_size char_signed hel5 /\
  at_ char_size false 3 hel5 = Throws out_of_range hel5 /\
  at_ char_size false 2 hel5 = Returns 2 hel5.
Proof.
  split; [exact hel5_invariant |].
  pose proof (at_checks_position char_size char_signed false char_is_standard 5
                capacity_5_ok hel5 2 hel5_invariant
                ltac:(unfold is_size_t, SIZE_MAX, size_t_bits; lia))
    as (_ & _ & Hend & Hlast & _).
  split; [exact Hend |]. apply Hlast. vm_compute. discriminate.
Defined.

Lemma substring_constructor_witness :
  array_ok storage5 /\
  ctor_sv_pos_n char_size char_signed false (codes "abc") 4 1 storage5
  = Throws out_of_range storage5 /\
  exists this : basic_inplace_string 5,
    ctor_sv_pos_n char_size char_signed false (codes "abc") 1 9 storage5
    = Returns tt this /\
    to_string char_size this = codes "bc".
Proof.
  split; [exact storage5_ok |]. split.
  - apply (proj1 (substring_constructor char_size char_signed false char_is_standard
                    5 capacity_5_ok storage5 (codes "abc") 4 1 storage5_ok
                    ltac:(unfold SIZE_MAX, size_t_bits; simpl; lia)
                    ltac:(unfold is_size_t, SIZE_MAX, size_t_bits; lia)
                    ltac:(unfold is_size_t, SIZE_MAX, size_t_bits; lia))).
    simpl. lia.
  - destruct (proj1 (proj2 (substring_constructor char_size char_signed false
                    char_is_standard 5 capacity_5_ok storage5 (codes "abc") 1 9
                    storage5_ok
                    ltac:(unfold SIZE_MAX, size_t_bits; simpl; lia)
                    ltac:(unfold is_size_t, SIZE_MAX, size_t_bits; lia)
                    ltac:(unfold is_size_t, SIZE_MAX, size_t_bits; lia)))
                ltac:(simpl; lia) ltac:(simpl; lia))
      as (this & Hrun & _ & Hstr & _).
    exists this. split; [exact Hrun | exact Hstr].
Defined.

(** C8 as the specification words it fails: an offset beyond the
    length of the source does not give an empty string, the constructor
    throws [std::out_of_range]. *)
Lemma substring_offset_beyond_length_counterexample :
  4 > Z.of_nat (length (codes "abc")) /\
  ctor_sv_pos_n char_size char_signed false (codes "abc") 4 1 storage5
  = Throws out_of_range storage5 /\
  4 > size char_size hel5 /\
  ctor_str_pos_n char_size char_signed false hel5 4 1 storage5
  = Throws out_of_range storage5 /\
  ~ (exists this : basic_inplace_string 5,
        ctor_sv_pos_n char_size char_signed false (codes "abc") 4 1 storage5
        = Returns tt this /\
        to_string char_size this = []).
Proof.
  split; [simpl; lia |]. split; [reflexivity |].
  split; [vm_compute; reflexivity |]. split; [reflexivity |].
  intros (this & Hrun & _). discriminate Hrun.
Defined.

Lemma over_capacity_assign_aborts_witness :
  6 > 5 /\
  assign char_size char_signed true (external (literal "hello!")) 6 storage5
  = Terminated /\
  assign char_size char_signed false (external (literal "hello!")) 6 storage5
  = AssertionFailed /\
  ctor_ptr_count char_size char_signed true (literal "hello!") 6 storage5 = Terminated /\
  (assert_ true (6 <=? 5);; set_size char_size char_signed 6;;
   traits_copy_to_data (external (literal "hello!")) 6) storage5
  = Throws length_error storage5.
Proof.
  split; [lia |].
  pose proof (over_capacity_assign_aborts char_size char_signed true char_is_standard
                5 capacity_5_ok storage5 (external (literal "hello!"))
                (literal "hello!") 6 ltac:(lia))
    as (Hrelease & Hctor & _ & _ & Hbody & _).
  pose proof (over_capacity_assign_aborts char_size char_signed false char_is_standard
                5 capacity_5_ok storage5 (external (literal "hello!"))
                (literal "hello!") 6 ltac:(lia))
    as (Hdebug & _).
  split; [exact Hrelease |]. split; [exact Hdebug |]. split; [exact Hctor | exact Hbody].
Defined.

(** C3 as the specification words it fails: [append(s, n)] beyond the
    capacity does report a recoverable error, [std::length_error], and
    the over-long [assign] ends in [std::terminate] under [NDEBUG], not
    in undefined behaviour. *)
Lemma append_over_capacity_counterexample :
  size char_size hello5 + 1 > 5 /\
  append char_size char_signed (literal "!") 1 hello5 = Throws length_error hello5 /\
  ~ (forall e this', append char_size char_signed (literal "!") 1 hello5
                     <> Throws e this') /\
  assign char_size char_signed true (external (literal "hello!")) 6 hello5
  = Terminated.
Proof.
  split; [vm_compute; reflexivity |]. split; [reflexivity |].
  split; [| reflexivity].
  intros H. exact (H length_error hello5 eq_refl).
Defined.

Lemma append_beyond_capacity_throws_witness :
  size char_size hello5 + 1 > 5 /\
  append char_size char_signed (literal "!") 1 hello5 = Throws length_error hello5 /\
  push_back char_size char_signed 33 hello5 = Throws length_error hello5.
Proof.
  split; [vm_compute; reflexivity |].
  pose proof (append_beyond_capacity_throws char_size char_signed char_is_standard
                5 capacity_5_ok hello5 (literal "!") 1 33) as [Happend Hpush].
  split.
  - apply Happend; [vm_compute; reflexivity | vm_compute; discriminate].
  - apply Hpush; [vm_compute; reflexivity | vm_compute; discriminate].
Defined.

(** C10 as stated fails for [assign(s, count)]: beyond the capacity it
    does not throw [std::length_error], it fails its assertion or, under
    [NDEBUG], runs into [std::terminate]. *)
Lemma assign_over_capacity_counterexample :
  6 > 5 /\
  assign char_size char_signed false (external (literal "hello!")) 6 hello5
  = AssertionFailed /\
  assign char_size char_signed true (external (literal "hello!")) 6 hello5
  = Terminated /\
  assign char_size char_signed false (external (literal "hello!")) 6 hello5
  <> Throws length_error hello5 /\
  assign char_size char_signed true (external (literal "hello!")) 6 hello5
  <> Throws length_error hello5.
Proof.
  split; [lia |]. split; [reflexivity |]. split; [reflexivity |].
  split; discriminate.
Defined.

Lemma relational_operators_compare_sequences_witness :
  size char_size hel5 = size char_size hel5' /\
  chars_ hel5 <> chars_ hel5' /\
  operator_eq char_size hel5 hel5' = true /\
  6 <= 6 /\
  exists a b : basic_inplace_string 6,
    ctor_c_str char_size char_signed false (literal "foo") storage6 = Returns tt a /\
    ctor_c_str char_size char_signed false (literal "foobar") storage6 = Returns tt b /\
    operator_lt char_size a b = true /\ operator_eq char_size a b = false.
Proof.
  split; [reflexivity |]. split; [discriminate |]. split.
  - pose proof (relational_operators_compare_sequences char_size char_signed false
                  char_is_standard 5 capacity_5_ok hel5 hel5')
      as (_ & _ & _ & _ & _ & _ & Hvacated & _).
    apply Hvacated; [reflexivity |].
    intros i Hi. vm_compute in Hi.
    destruct i as [| [| [| i]]]; [reflexivity | reflexivity | reflexivity | lia].
  - split; [lia |].
    pose proof (relational_operators_compare_sequences char_size char_signed false
                  char_is_standard 6
                  ltac:(unfold static_assert_MaxSize, impl_size_max, impl_size_bits;
                        simpl; lia)
                  storage6 storage6)
      as (_ & _ & _ & _ & _ & _ & _ & _ & Hfoo).
    apply Hfoo; [lia | reflexivity | reflexivity].
Defined.

(** *** The further members at [inplace_string<5>] *)

Lemma capacity_3_ok : static_assert_MaxSize 1 3.
Proof. unfold static_assert_MaxSize, impl_size_max, impl_size_bits. simpl. lia. Defined.

Lemma a0b5_invariant : invariant char_size char_signed a0b5.
Proof. unfold invariant. evaluate. Defined.

Lemma empty5_invariant : invariant char_size char_signed empty5.
Proof. unfold invariant. evaluate. Defined.

Lemma hel3_invariant : invariant char_size char_signed hel3.
Proof. unfold invariant. evaluate. Defined.

Ltac nonzero := cbn; repeat (constructor; [lia |]); constructor.

Ltac size_t_value := unfold is_size_t, SIZE_MAX, size_t_bits; simpl; lia.

Lemma set_size_round_trip_witness :
  array_ok storage5 /\
  (exists this' : basic_inplace_string 5,
      set_size char_size char_signed 3 storage5 = Returns tt this' /\
      size char_size this' = 3) /\
  set_size char_size char_signed 6 storage5 = Throws length_error storage5.
Proof.
  split; [exact storage5_ok |].
  pose proof (set_size_round_trip char_size char_signed char_is_standard 5 capacity_5_ok
                storage5 3 storage5_ok ltac:(lia)) as [Hfit _].
  pose proof (set_size_round_trip char_size char_signed char_is_standard 5 capacity_5_ok
                storage5 6 storage5_ok ltac:(lia)) as [_ Hover].
  split; [| apply Hover; lia].
  destruct (Hfit ltac:(lia)) as (this' & Hrun & Hsz & _).
  exists this'. split; [exact Hrun | exact Hsz].
Defined.

Lemma resize_result_witness :
  invariant char_size char_signed hel5 /\
  exists this' : basic_inplace_string 5,
    resize char_size char_signed 5 33 hel5 = Returns tt this' /\
    size char_size this' = 5 /\
    to_string char_size this' = codes "hel!!".
Proof.
  split; [exact hel5_invariant |].
  destruct (proj1 (resize_result char_size char_signed char_is_standard 5 capacity_5_ok
                     hel5 5 33 hel5_invariant ltac:(lia)))
    as (this' & Hrun & Hsz & Hstr).
  exists this'. split; [exact Hrun |]. split; [exact Hsz |].
  rewrite Hstr. reflexivity.
Defined.

Lemma append_fill_result_witness :
  invariant char_size char_signed hel5 /\
  exists this' : basic_inplace_string 5,
    push_back char_size char_signed 33 hel5 = Returns tt this' /\
    to_string char_size this' = codes "hel!".
Proof.
  split; [exact hel5_invariant |].
  destruct (proj2 (append_fill_result char_size char_signed char_is_standard 5
                     capacity_5_ok hel5 1 33 hel5_invariant ltac:(lia))
              ltac:(vm_compute; reflexivity))
    as (this' & Hrun & _ & _ & Hstr).
  exists this'. split; [exact Hrun |]. rewrite Hstr. reflexivity.
Defined.



Lemma append_str_result_witness :
  invariant char_size char_signed empty5 /\ invariant char_size char_signed hel3 /\
  exists this' : basic_inplace_string 5,
    append_str char_size char_signed hel3 empty5 = Returns tt this' /\
    to_string char_size this' = codes "hel".
Proof.
  split; [exact empty5_invariant |]. split; [exact hel3_invariant |].
  destruct (proj1 (append_str_result char_size char_signed char_is_standard 5
                     capacity_5_ok 3 hel3 empty5 capacity_3_ok empty5_invariant
                     hel3_invariant)
              ltac:(vm_compute; discriminate))
    as (this' & Hrun & _ & Hstr).
  exists this'. split; [exact Hrun |]. rewrite Hstr. reflexivity.
Defined.


Lemma assign_substring_result_witness :
  array_ok storage5 /\
  (exists this' : basic_inplace_string 5,
      assign_sv_pos char_size char_signed false
        {| sv_data := external (codes "hello world"); sv_size := 11 |} 6 9 storage5
      = Returns tt this' /\
      to_string char_size this' = codes "world") /\
  assign_sv_pos char_size char_signed false
    {| sv_data := external (codes "hello world"); sv_size := 11 |} 12 9 storage5
  = Throws out_of_range storage5 /\
  (exists this' : basic_inplace_string 5,
      assign_sv_pos char_size char_signed false
        {| sv_data := internal 0; sv_size := 5 |} 3 2 hello5
      = Returns tt this' /\
      to_string char_size this' = codes "lo") /\
  (exists this' : basic_inplace_string 5,
      assign_sv_pos char_size char_signed false
        {| sv_data := internal 0; sv_size := 5 |} 2 2 hello5
      = Returns tt this' /\
      to_string char_size this' = [0; 108]).
Proof.
  split; [exact storage5_ok |].
  pose proof (assign_substring_result char_size char_signed false char_is_standard 5
                capacity_5_ok storage5
                {| sv_data := external (codes "hello world"); sv_size := 11 |} 6 9
                storage5_ok ltac:(vm_compute; split; discriminate)
                ltac:(lia) ltac:(lia)) as [_ Hworld].
  pose proof (assign_substring_result char_size char_signed false char_is_standard 5
                capacity_5_ok storage5
                {| sv_data := external (codes "hello world"); sv_size := 11 |} 12 9
                storage5_ok ltac:(vm_compute; split; discriminate)
                ltac:(lia) ltac:(lia)) as [Hthrow _].
  pose proof (assign_substring_result char_size char_signed false char_is_standard 5
                capacity_5_ok hello5 {| sv_data := internal 0; sv_size := 5 |} 3 2
                ltac:(reflexivity) ltac:(vm_compute; split; discriminate)
                ltac:(lia) ltac:(lia)) as [_ Hlo].
  pose proof (assign_substring_result char_size char_signed false char_is_standard 5
                capacity_5_ok hello5 {| sv_data := internal 0; sv_size := 5 |} 2 2
                ltac:(reflexivity) ltac:(vm_compute; split; discriminate)
                ltac:(lia) ltac:(lia)) as [_ Hll].
  split; [| split; [| split]].
  - destruct (proj1 (Hworld ltac:(simpl; lia) ltac:(simpl; lia))
                (codes "hello world") eq_refl ltac:(simpl; lia))
      as (this' & Hrun & Hstr).
    exists this'. split; [exact Hrun |]. rewrite Hstr. reflexivity.
  - apply Hthrow. simpl. lia.
  - destruct (proj1 (proj2 (Hlo ltac:(simpl; lia) ltac:(simpl; lia)))
                0%nat eq_refl ltac:(simpl; lia) ltac:(simpl; lia))
      as (this' & Hrun & Hstr).
    exists this'. split; [exact Hrun |]. rewrite Hstr. reflexivity.
  - destruct (proj2 (proj2 (Hll ltac:(simpl; lia) ltac:(simpl; lia)))
                0%nat eq_refl ltac:(simpl; lia) ltac:(simpl; lia))
      as (mid & this' & Hmid & Hrun & Hstr).
    exists this'. split; [exact Hrun |]. rewrite Hstr.
    injection Hmid as <-. reflexivity.
Defined.

Lemma assign_fill_result_witness :
  array_ok storage5 /\
  (exists this' : basic_inplace_string 5,
      assign_fill char_size char_signed true 3 120 storage5 = Returns tt this' /\
      to_string char_size this' = codes "xxx") /\
  assign_fill char_size char_signed true 6 120 storage5 = Throws length_error storage5 /\
  assign_fill char_size char_signed false 6 120 storage5 = AssertionFailed.
Proof.
  split; [exact storage5_ok |]. split; [| split].
  - destruct (proj1 (assign_fill_result char_size char_signed true char_is_standard 5
                       capacity_5_ok storage5 3 120 storage5_ok ltac:(lia))
                ltac:(lia))
      as (this' & Hrun & _ & _ & Hstr).
    exists this'. split; [exact Hrun |]. rewrite Hstr. reflexivity.
  - apply (proj2 (assign_fill_result char_size char_signed true char_is_standard 5
                    capacity_5_ok storage5 6 120 storage5_ok ltac:(lia))). lia.
  - apply (proj2 (assign_fill_result char_size char_signed false char_is_standard 5
                    capacity_5_ok storage5 6 120 storage5_ok ltac:(lia))). lia.
Defined.

Lemma operator_assign_char_result_witness :
  array_ok storage5 /\
  exists this' : basic_inplace_string 5,
    operator_assign_char char_size char_signed false 120 storage5 = Returns tt this' /\
    to_string char_size this' = codes "x".
Proof.
  split; [exact storage5_ok |].
  destruct (proj1 (operator_assign_char_result char_size char_signed false
                     char_is_standard 5 capacity_5_ok storage5 120 storage5_ok)
              ltac:(lia))
    as (this' & Hrun & _ & Hstr).
  exists this'. split; [exact Hrun |]. rewrite Hstr. reflexivity.
Defined.

Lemma assign_range_result_witness :
  array_ok storage5 /\
  (exists this' : basic_inplace_string 5,
      assign_range char_size char_signed (external (codes "hello")) 5 storage5
      = Returns tt this' /\
      to_string char_size this' = codes "hello") /\
  assign_range char_size char_signed (external (codes "hello!")) 6 storage5
  = Throws length_error storage5 /\
  (exists this' : basic_inplace_string 5,
      assign_range char_size char_signed (internal 3) 2 hello5 = Returns tt this' /\
      to_string char_size this' = codes "lo") /\
  (exists this' : basic_inplace_string 5,
      assign_range char_size char_signed (internal 2) 2 hello5 = Returns tt this' /\
      to_string char_size this' = [0; 108]).
Proof.
  split; [exact storage5_ok |]. split; [| split; [| split]].
  - destruct (proj1 (assign_range_result char_size char_signed false char_is_standard 5
                       capacity_5_ok storage5 (external (codes "hello")) (codes "hello")
                       5 storage5_ok)
                ltac:(simpl; lia))
      as (this' & Hrun & _ & _ & Hstr).
    exists this'. split; [exact Hrun | exact Hstr].
  - apply (proj1 (proj2 (proj2 (proj2
             (assign_range_result char_size char_signed false char_is_standard 5
                capacity_5_ok storage5 (external (codes "hello!")) (codes "hello!")
                6 storage5_ok))))).
    lia.
  - destruct (proj1 (proj2
                (assign_range_result char_size char_signed false char_is_standard 5
                   capacity_5_ok hello5 (internal 3) [] 2 ltac:(reflexivity)))
                3%nat ltac:(simpl; lia) ltac:(simpl; lia))
      as (this' & Hrun & _ & Hstr).
    exists this'. split; [exact Hrun |]. rewrite Hstr. reflexivity.
  - destruct (proj1 (proj2 (proj2
                (assign_range_result char_size char_signed false char_is_standard 5
                   capacity_5_ok hello5 (internal 2) [] 2 ltac:(reflexivity))))
                2%nat ltac:(simpl; lia) ltac:(simpl; lia) ltac:(simpl; lia))
      as (mid & this' & Hmid & Hrun & _ & Hstr).
    exists this'. split; [exact Hrun |]. rewrite Hstr.
    injection Hmid as <-. reflexivity.
Defined.


Lemma store_at_result_witness :
  invariant char_size char_signed hel5 /\
  (exists this' : basic_inplace_string 5,
      (r ← at_ char_size false 1; store r 97) hel5 = Returns tt this' /\
      to_string char_size this' = codes "hal") /\
  (r ← at_ char_size false 3; store r 97) hel5 = Throws out_of_range hel5.
Proof.
  split; [exact hel5_invariant |]. split.
  - destruct (proj1 (store_at_result char_size char_signed false char_is_standard 5
                       capacity_5_ok hel5 1 97 hel5_invariant ltac:(lia))
                ltac:(vm_compute; reflexivity))
      as (this' & Hrun & _ & Hstr & _).
    exists this'. split; [exact Hrun |]. rewrite Hstr. reflexivity.
  - apply (proj2 (store_at_result char_size char_signed false char_is_standard 5
                    capacity_5_ok hel5 3 97 hel5_invariant ltac:(lia))).
    vm_compute. discriminate.
Defined.

Lemma unchecked_access_witness :
  invariant char_size char_signed hel5 /\ invariant char_size char_signed empty5 /\
  (forall checked : bool,
      front char_size checked hel5 = Returns 0 hel5 /\
      back char_size checked hel5 = Returns 2 hel5) /\
  operator_index char_size false 3 hel5 = Returns 3 hel5 /\
  operator_index char_size true 3 hel5 = AssertionFailed /\
  front char_size false empty5 = Returns 0 empty5 /\
  front char_size true empty5 = AssertionFailed /\
  back char_size false empty5 = Undefined /\
  back char_size true empty5 = AssertionFailed.
Proof.
  split; [exact hel5_invariant |]. split; [exact empty5_invariant |].
  pose proof (fun checked =>
                unchecked_access char_size char_signed checked char_is_standard 5
                  capacity_5_ok hel5 hel5_invariant) as Hhel.
  pose proof (fun checked =>
                unchecked_access char_size char_signed checked char_is_standard 5
                  capacity_5_ok empty5 empty5_invariant) as Hempty.
  split; [| split; [| split; [| split; [| split; [| split]]]]].
  - intros checked. destruct (Hhel checked) as (_ & Hends & _).
    apply Hends. vm_compute. discriminate.
  - destruct (Hhel false) as (_ & _ & Hterm & _). exact Hterm.
  - destruct (Hhel true) as (_ & _ & Hterm & _). exact Hterm.
  - destruct (Hempty false) as (_ & _ & _ & _ & Hnone).
    exact (proj1 (Hnone eq_refl)).
  - destruct (Hempty true) as (_ & _ & _ & _ & Hnone).
    exact (proj1 (Hnone eq_refl)).
  - destruct (Hempty false) as (_ & _ & _ & _ & Hnone).
    exact (proj1 (proj2 (Hnone eq_refl))).
  - destruct (Hempty true) as (_ & _ & _ & _ & Hnone).
    exact (proj1 (proj2 (Hnone eq_refl))).
Defined.

Lemma c_str_null_terminated_witness :
  invariant char_size char_signed a0b5 /\
  size char_size a0b5 = 3 /\
  c_string_range (c_str a0b5) = Some (codes "a").
Proof.
  split; [exact a0b5_invariant |]. split; [reflexivity |].
  destruct (c_str_null_terminated char_size char_signed 5 a0b5 a0b5_invariant)
    as (n & _ & _ & Hrange & _).
  rewrite Hrange. reflexivity.
Defined.

Lemma stream_output_witness :
  invariant char_size char_signed a0b5 /\
  operator_shl (codes ">") a0b5 = Some (codes ">a").
Proof.
  split; [exact a0b5_invariant |].
  rewrite (proj1 (stream_output char_size char_signed 5 a0b5 (codes ">") a0b5_invariant)).
  reflexivity.
Defined.

Lemma c_string_comparisons_witness :
  Forall (fun c => c <> 0) (codes "hello") /\
  operator_eq_ptr_str char_size (literal "hello") hel5
  = operator_eq_str_ptr char_size hel5 (literal "hello") /\
  operator_lt_str_ptr char_size hel5 (literal "hello") = Some true /\
  operator_gt_ptr_str char_size (literal "hello") hel5 = Some true /\
  operator_eq_str_ptr char_size hel5 (codes "hello") = None.
Proof.
  split; [nonzero |].
  pose proof (c_string_comparisons char_size 5 hel5 (codes "hello") [] ltac:(nonzero))
    as ((b1 & Heq & Heq' & _) & (b2 & Hlt & Hgt & _ & _ & Hless) & _ & (Hnone & _)).
  change (literal "hello") with (codes "hello" ++ [0]).
  assert (Hb2 : b2 = true).
  { apply Hless. vm_compute. do 3 apply less_after_equal. apply less_proper_prefix. }
  subst b2.
  split; [now rewrite Heq, Heq' |]. split; [exact Hlt |]. split; [exact Hgt | exact Hnone].
Defined.

Lemma compare_with_c_str_witness :
  invariant char_size char_signed hel5 /\ invariant char_size char_signed hello5 /\
  Forall (fun c => c <> 0) (to_string char_size hello5) /\
  operator_lt_str_ptr char_size hel5 (c_str hello5)
  = Some (operator_lt char_size hel5 hello5).
Proof.
  split; [exact hel5_invariant |]. split; [exact hello5_invariant |].
  split; [nonzero |].
  apply (proj1 (compare_with_c_str char_size char_signed 5 hel5 hello5
                  hel5_invariant hello5_invariant)).
  nonzero.
Defined.

Lemma c_string_round_trip_witness :
  array_ok storage5 /\ Forall (fun c => c <> 0) (codes "hello") /\
  exists a : basic_inplace_string 5,
    ctor_c_str char_size char_signed false (literal "hello") storage5 = Returns tt a /\
    to_string char_size a = codes "hello" /\
    operator_eq_str_ptr char_size a (literal "hello") = Some true.
Proof.
  split; [exact storage5_ok |]. split; [nonzero |].
  destruct (proj1 (c_string_round_trip char_size char_signed false char_is_standard 5
                     capacity_5_ok storage5 (codes "hello") [] storage5_ok
                     ltac:(nonzero))
              ltac:(simpl; lia))
    as (a & Hrun & Hstr & _ & Heq & _).
  exists a. split; [exact Hrun |]. split; [exact Hstr | exact Heq].
Defined.

Lemma resize_default_fill_hidden_witness :
  invariant char_size char_signed hel5 /\
  Forall (fun c => c <> 0) (to_string char_size hel5) /\
  exists this' : basic_inplace_string 5,
    resize1 char_size char_signed 5 hel5 = Returns tt this' /\
    size char_size this' = 5 /\
    c_string_range (c_str this') = Some (codes "hel").
Proof.
  split; [exact hel5_invariant |]. split; [nonzero |].
  destruct (resize_default_fill_hidden char_size char_signed char_is_standard 5
              capacity_5_ok hel5 5 hel5_invariant ltac:(nonzero)
              ltac:(vm_compute; repeat split; discriminate))
    as (this' & Hrun & Hsz & _ & Hrange & _).
  exists this'. split; [exact Hrun |]. split; [exact Hsz | exact Hrange].
Defined.

Lemma clear_then_append_is_assign_witness :
  array_ok hel5 /\
  exists empty_ this' : basic_inplace_string 5,
    clear char_size char_signed hel5 = Returns tt empty_ /\
    append char_size char_signed (codes "hi") 2 empty_ = Returns tt this' /\
    assign char_size char_signed false (external (codes "hi")) 2 hel5 = Returns tt this'.
Proof.
  split; [reflexivity |].
  destruct (clear_then_append_is_assign char_size char_signed false char_is_standard 5
              capacity_5_ok hel5 (codes "hi") 2 ltac:(reflexivity)
              ltac:(simpl; lia) ltac:(lia))
    as (e & this' & Hclear & _ & _ & Happend & Hassign & _).
  exists e, this'. split; [exact Hclear |]. split; [exact Happend | exact Hassign].
Defined.

Lemma empty_growth_is_identity_witness :
  invariant char_size char_signed hello5 /\
  append char_size char_signed (codes "x") 0 hello5 = Returns tt hello5 /\
  resize char_size char_signed 5 33 hello5 = Returns tt hello5.
Proof.
  split; [exact hello5_invariant |].
  pose proof (empty_growth_is_identity char_size char_signed char_is_standard 5
                capacity_5_ok hello5 (codes "x") 33 hello5_invariant)
    as (Hresize & Happend & _).
  split; [exact Happend | exact Hresize].
Defined.

Lemma wrapped_append_fill_shrinks_witness :
  invariant char_size char_signed hel5 /\
  exists this' : basic_inplace_string 5,
    append_fill char_size char_signed (SIZE_MAX + 1 - 2) 65 hel5 = Returns tt this' /\
    size char_size this' = 1 /\
    to_string char_size this' = codes "h".
Proof.
  split; [exact hel5_invariant |].
  destruct (proj2 (wrapped_append_fill_shrinks char_size char_signed char_is_standard 5
                     capacity_5_ok hel5 2 65 hel5_invariant
                     ltac:(vm_compute; repeat split; discriminate)))
    as (this' & Hrun & Hsz & Hstr).
  exists this'. split; [exact Hrun |]. split; [exact Hsz |].
  rewrite Hstr. reflexivity.
Defined.

End Examples.
